(** * Circumcircle through three points in space: the solver and the
      line and circle drawing helpers of [circumcircle3.py]

    The program computes with NumPy arrays of three numbers.  The numeric
    code is written once here, over an interface [Scalar] of the arithmetic
    it uses, and read at two instances:

    - [float], IEEE 754 binary64, the arithmetic of [numpy.float64] and so
      the arithmetic of the program: what the program does on given
      positions is what the code does at this instance;
    - [R], exact real arithmetic, in which the geometry of the algorithm is
      proved.  A statement at this instance is a statement about the
      algorithm in exact arithmetic, and it says so.

    Statements that hold whatever the arithmetic are proved for every
    instance of [Scalar]. *)

From Stdlib Require Import Floats.
From Stdlib Require Import List Bool ZArith Lia Reals Lra.
From Stdlib Require Strings.String.
Import ListNotations.

Set Implicit Arguments.

(** ** The arithmetic the program uses *)

Declare Scope scalar_scope.
Delimit Scope scalar_scope with sc.

Class Scalar (F : Type) : Type := {
  zero : F;
  one : F;
  two : F;
  half : F;                 (* the literal 0.5 *)
  atol : F;                 (* 1e-8, default [atol] of [np.isclose] *)
  rtol : F;                 (* 1e-5, default [rtol] of [np.isclose] *)
  add : F -> F -> F;
  sub : F -> F -> F;
  mul : F -> F -> F;
  div : F -> F -> F;
  opp : F -> F;
  absv : F -> F;
  root : F -> F;            (* [np.sqrt] *)
  eqb : F -> F -> bool;     (* [==] *)
  ltb : F -> F -> bool;     (* [<] *)
  leb : F -> F -> bool;     (* [<=] *)
  of_nat : nat -> F         (* an integer as a number of the array type *)
}.

Infix "+" := add : scalar_scope.
Infix "-" := sub : scalar_scope.
Infix "*" := mul : scalar_scope.
Infix "/" := div : scalar_scope.
Notation "- x" := (opp x) : scalar_scope.

(** Exact reals.  The comparisons are the decidable order of [R]. *)

Definition Reqb (x y : R) : bool := if Req_dec_T x y then true else false.
Definition Rltb (x y : R) : bool := if Rlt_dec x y then true else false.
Definition Rleb (x y : R) : bool := if Rle_dec x y then true else false.

#[export] Instance R_scalar : Scalar R := {|
  zero := 0%R;
  one := 1%R;
  two := 2%R;
  half := (1 / 2)%R;
  atol := (1 / 100000000)%R;
  rtol := (1 / 100000)%R;
  add := Rplus;
  sub := Rminus;
  mul := Rmult;
  div := Rdiv;
  opp := Ropp;
  absv := Rabs;
  root := sqrt;
  eqb := Reqb;
  ltb := Rltb;
  leb := Rleb;
  of_nat := INR
|}.

(** Binary64, as [numpy.float64].  The two tolerances are the doubles
    nearest to [1e-8] and [1e-5]. *)

#[export] Instance float_scalar : Scalar float := {|
  zero := 0%float;
  one := 1%float;
  two := 2%float;
  half := 0.5%float;
  atol := 0x1.5798ee2308c3ap-27%float;
  rtol := 0x1.4f8b588e368f1p-17%float;
  add := PrimFloat.add;
  sub := PrimFloat.sub;
  mul := PrimFloat.mul;
  div := PrimFloat.div;
  opp := PrimFloat.opp;
  absv := PrimFloat.abs;
  root := PrimFloat.sqrt;
  eqb := PrimFloat.eqb;
  ltb := PrimFloat.ltb;
  leb := PrimFloat.leb;
  of_nat := fun n => PrimFloat.of_uint63 (Uint63.of_Z (Z.of_nat n))
|}.

(** ** Python exceptions and the outcome of a call *)

Inductive exn : Type := IndexError | LinAlgError.

Inductive outcome (A : Type) : Type :=
| Returns (a : A)
| Raises (e : exn).
Arguments Raises {A} e.

(** ** Arrays of three numbers and the NumPy operations on them *)

Section Numpy.

Context {F : Type} {SF : Scalar F}.
Local Open Scope scalar_scope.

(** [Vector]: an array of shape (3,).  [Matrix]: an array of shape (3, 3),
    as its three rows. *)
Definition Vector : Type := F * F * F.
Definition Matrix : Type := Vector * Vector * Vector.

(** [u - v], elementwise. *)
Definition vsub (u v : Vector) : Vector :=
  let '(u1, u2, u3) := u in
  let '(v1, v2, v3) := v in
  (u1 - v1, u2 - v2, u3 - v3).

(** [u + v], elementwise. *)
Definition vadd (u v : Vector) : Vector :=
  let '(u1, u2, u3) := u in
  let '(v1, v2, v3) := v in
  (u1 + v1, u2 + v2, u3 + v3).

(** [s * u], an array multiplied by a number. *)
Definition vscale (s : F) (u : Vector) : Vector :=
  let '(u1, u2, u3) := u in
  (s * u1, s * u2, s * u3).

(** [u / s], an array divided by a number. *)
Definition vdiv (u : Vector) (s : F) : Vector :=
  let '(u1, u2, u3) := u in
  (u1 / s, u2 / s, u3 / s).

(** [u ** 2], elementwise. *)
Definition vsquare (u : Vector) : Vector :=
  let '(u1, u2, u3) := u in
  (u1 * u1, u2 * u2, u3 * u3).

(** [np.sum(u)]. *)
Definition np_sum (u : Vector) : F :=
  let '(u1, u2, u3) := u in
  u1 + u2 + u3.

(** [u.dot(v)]. *)
Definition np_dot (u v : Vector) : F :=
  let '(u1, u2, u3) := u in
  let '(v1, v2, v3) := v in
  u1 * v1 + u2 * v2 + u3 * v3.

(** [np.cross(u, v)]. *)
Definition np_cross (u v : Vector) : Vector :=
  let '(u1, u2, u3) := u in
  let '(v1, v2, v3) := v in
  (u2 * v3 - u3 * v2, u3 * v1 - u1 * v3, u1 * v2 - u2 * v1).

(** [np.linalg.norm(u)]: the square root of [u.dot(u)]. *)
Definition linalg_norm (u : Vector) : F := root (np_dot u u).

(** [np.isclose(x, y)] with the default tolerances, on finite numbers:
    [abs(x - y) <= atol + rtol * abs(y)]. *)
Definition np_isclose (x y : F) : bool :=
  leb (absv (x - y)) (atol + rtol * absv y).

(** *** [np.linalg.solve]

    NumPy hands the system to LAPACK's [gesv]: an LU factorisation with
    partial pivoting and row interchanges, then the two triangular solves.
    The factorisation reports a singular matrix when a pivot is exactly
    zero, and NumPy raises [LinAlgError] for it.  A row of the system is
    kept here together with its right-hand side.

    The multipliers are formed as the reference [getf2] forms them, by
    scaling with the reciprocal of the pivot, and the triangular solve takes
    the unknowns out in the order of the reference [trsm].  An
    implementation of LAPACK remains free in how it accumulates the updates
    of an entry and in fusing a product with a sum, so in binary64 its
    result can differ from this one in the last bits.  The runs in binary64
    below are on systems whose factorisation is exact, where this freedom
    does not matter. *)

Definition Row : Type := Vector * F.

Definition coeffs (r : Row) : Vector := fst r.
Definition rhs_of (r : Row) : F := snd r.
Definition col1 (r : Row) : F := let '(x, _, _) := coeffs r in x.
Definition col2 (r : Row) : F := let '(_, y, _) := coeffs r in y.
Definition col3 (r : Row) : F := let '(_, _, z) := coeffs r in z.

(** [r - l * p] on the columns right of the pivot column and on the
    right-hand side; the pivot column itself becomes zero and is dropped.
    The multiplier [l] is the entry below the pivot scaled by the reciprocal
    of the pivot, as [getf2] forms it. *)
Definition eliminate1 (p r : Row) : Row :=
  let l := col1 r * (one / col1 p) in
  ((zero, col2 r - l * col2 p, col3 r - l * col3 p), rhs_of r - l * rhs_of p).

Definition eliminate2 (p r : Row) : Row :=
  let l := col2 r * (one / col2 p) in
  ((zero, zero, col3 r - l * col3 p), rhs_of r - l * rhs_of p).

(** The pivot search takes the first entry of largest magnitude: the row
    moves up only when its entry is strictly larger. *)
Definition pivot1 (r1 r2 r3 : Row) : Row * Row * Row :=
  if ltb (absv (col1 r1)) (absv (col1 r2)) then
    if ltb (absv (col1 r2)) (absv (col1 r3)) then (r3, r2, r1) else (r2, r1, r3)
  else
    if ltb (absv (col1 r1)) (absv (col1 r3)) then (r3, r2, r1) else (r1, r2, r3).

Definition pivot2 (r2 r3 : Row) : Row * Row :=
  if ltb (absv (col2 r2)) (absv (col2 r3)) then (r3, r2) else (r2, r3).

(** The factorisation, carrying the right-hand side along: the rows of the
    triangular system, or [LinAlgError] at an exactly zero pivot. *)
Definition getrf (A : Matrix) (b : Vector) : outcome (Row * Row * Row) :=
  let '(A1, A2, A3) := A in
  let '(b1, b2, b3) := b in
  let '(p1, q1, r1) := pivot1 (A1, b1) (A2, b2) (A3, b3) in
  if eqb (col1 p1) zero then Raises LinAlgError else
  let '(p2, q2) := pivot2 (eliminate1 p1 q1) (eliminate1 p1 r1) in
  if eqb (col2 p2) zero then Raises LinAlgError else
  let p3 := eliminate2 p2 q2 in
  if eqb (col3 p3) zero then Raises LinAlgError else
  Returns (p1, p2, p3).

(** The solve of the upper triangular system, last unknown first: each
    unknown, once known, is taken out of the equations above it. *)
Definition back_substitute (U : Row * Row * Row) : Vector :=
  let '(p1, p2, p3) := U in
  let x3 := rhs_of p3 / col3 p3 in
  let x2 := (rhs_of p2 - x3 * col3 p2) / col2 p2 in
  let x1 := (rhs_of p1 - x3 * col3 p1 - x2 * col2 p1) / col1 p1 in
  (x1, x2, x3).

Definition linalg_solve (A : Matrix) (b : Vector) : outcome Vector :=
  match getrf A b with
  | Returns U => Returns (back_substitute U)
  | Raises e => Raises e
  end.

End Numpy.

Arguments Vector F : clear implicits.
Arguments Matrix F : clear implicits.
Arguments Row F : clear implicits.

(** ** The scene: nodes and the circumcircle object *)

(** The colours are defined in [util], which is not among the sources; the
    program names these three. *)
Inductive Color : Type := BLACK | RED | WHITE.

(** A method of an object of state [S]: it may read and assign the
    attributes of the object, and it returns or raises. *)
Definition Method (S A : Type) : Type := S -> outcome A * S.

Definition ret {S A : Type} (a : A) : Method S A :=
  fun s => (Returns a, s).

Definition raise {S A : Type} (e : exn) : Method S A :=
  fun s => (Raises e, s).

Definition bind {S A B : Type} (m : Method S A) (k : A -> Method S B)
  : Method S B :=
  fun s =>
    match m s with
    | (Returns a, s') => k a s'
    | (Raises e, s') => (Raises e, s')
    end.

Definition gets {S A : Type} (f : S -> A) : Method S A :=
  fun s => (Returns (f s), s).

Definition modify {S : Type} (f : S -> S) : Method S unit :=
  fun s => (Returns tt, f s).

(** [try: m except e: h] *)
Definition try_except {S A : Type} (m : Method S A) (e : exn) (h : Method S A)
  : Method S A :=
  fun s =>
    match m s with
    | (Returns a, s') => (Returns a, s')
    | (Raises e', s') =>
        match e, e' with
        | IndexError, IndexError | LinAlgError, LinAlgError => h s'
        | _, _ => (Raises e', s')
        end
    end.

(** A pure library call that may raise. *)
Definition call {S A : Type} (o : outcome A) : Method S A :=
  fun s => (o, s).

Declare Scope method_scope.
Delimit Scope method_scope with method.
Notation "x <- m ;; k" := (bind m (fun x => k))
  (at level 61, m at next level, right associativity) : method_scope.

Section Scene.

Context {F : Type} {SF : Scalar F}.
Local Open Scope scalar_scope.

(** A node ([node.py], not among the sources) is used here through its
    [position] and the colour it is built with, if one is given.  The
    position is an array of three numbers of the arithmetic [F].  The
    program starts from arrays of small integers; NumPy computes their
    differences, squares and products in int64, and as long as no
    intermediate result leaves the integers that float64 holds exactly the
    two computations agree. *)
Record Node : Type := mkNode {
  position : Vector F;
  node_color : option Color
}.

Record Circumcircle : Type := mkCircumcircle {
  nodes : list Node;
  color : Color
}.

(** [self.nodes[i].position]; an index past the end raises [IndexError]. *)
Definition node_position (i : nat) : Method Circumcircle (Vector F) :=
  (ns <- gets nodes ;;
   match nth_error ns i with
   | Some n => ret (position n)
   | None => raise IndexError
   end)%method.

(** What [get_circle_params] returns when it returns a circle:
    [(center, normal, radius)]. *)
Definition Circle : Type := Vector F * Vector F * F.

(** [Circumcircle.get_circle_params] *)
Definition get_circle_params : Method Circumcircle (option Circle) :=
  (a <- node_position 0 ;;
   b <- node_position 1 ;;
   c <- node_position 2 ;;
   let '(a1, a2, a3) := a in
   let '(b1, b2, b3) := b in
   let '(c1, c2, c3) := c in
   let a_norm2 := np_sum (vsquare a) in
   let b_norm2 := np_sum (vsquare b) in
   let c_norm2 := np_sum (vsquare c) in
   let normal := np_cross (vsub b a) (vsub c a) in
   let A := ((b1 - a1, b2 - a2, b3 - a3),
             (c1 - b1, c2 - b2, c3 - b3),
             normal) in
   let rhs := (half * (b_norm2 - a_norm2),
               half * (c_norm2 - b_norm2),
               np_dot a normal) in
   r <- try_except
          (center <- call (linalg_solve A rhs) ;; ret (Some center))
          LinAlgError
          (ret None) ;;
   match r with
   | None => ret None
   | Some center =>
       let radius := linalg_norm (vsub center a) in
       ret (Some (center, vdiv normal (linalg_norm normal), radius))
   end)%method.

(** Modelled from the spec: the input handler ([input.py], not among the
    sources) may overwrite the position of any node between two frames. *)
Definition move_node (i : nat) (p : Vector F) : Method Circumcircle unit :=
  modify (fun self =>
    match nth_error (nodes self) i with
    | Some n =>
        mkCircumcircle
          (firstn i (nodes self) ++ mkNode p (node_color n) :: skipn (S i) (nodes self))
          (color self)
    | None => self
    end).

End Scene.

Arguments Node F : clear implicits.
Arguments Circumcircle F : clear implicits.
Arguments Circle F : clear implicits.

(** ** Drawing through the camera *)

(** [np.cos], [np.sin] and [np.pi], used for the points of the circle. *)
Class Trig (F : Type) : Type := {
  cosine : F -> F;
  sine : F -> F;
  pi : F
}.

#[export] Instance R_trig : Trig R := {|
  cosine := cos;
  sine := sin;
  pi := PI
|}.

Section Drawing.

Context {F : Type} {SF : Scalar F}.
Local Open Scope scalar_scope.

(** The camera ([camera.py]) is not among the sources: it is taken as a
    type with its projection method, which returns a point of the screen or
    [None]. *)
Variable Camera : Type.
Variable world_to_screen : Camera -> Vector F -> option (F * F).

(** The surface records the calls of [pygame.draw.line] made on it. *)
Inductive DrawCall : Type :=
| DrawLine (c : Color) (start_pos end_pos : F * F) (width : Z).

Definition Surface : Type := list DrawCall.

(** [draw_line3d] *)
Definition draw_line3d (screen : Surface) (camera : Camera) (c : Color)
    (start end_ : Vector F) (width : Z) : Surface :=
  let start2d := world_to_screen camera start in
  let end2d := world_to_screen camera end_ in
  match start2d, end2d with
  | Some s, Some e => screen ++ [DrawLine c s e width]
  | _, _ => screen
  end.

(** The two vectors [orth1] and [orth2] that [draw_circle3d] builds from the
    normal (its lines 59 to 70). *)
Definition plane_basis (normal : Vector F) : Vector F * Vector F :=
  let '(n1, n2, n3) := normal in
  let orth1 :=
    if np_isclose n1 zero then (one, zero, zero)
    else if np_isclose n2 zero then (zero, one, zero)
    else if np_isclose n3 zero then (zero, zero, one)
    else (n2 * n3, (- two) * n1 * n3, n1 * n2) in
  let orth1 := vdiv orth1 (linalg_norm orth1) in
  let orth2 := np_cross normal orth1 in
  (orth1, orth2).

(** [np.linspace(start, stop, num)] *)
Definition linspace (start stop : F) (num : nat) : list F :=
  match num with
  | 0%nat => []
  | 1%nat => [start]
  | S n =>
      let step := (stop - start) / of_nat n in
      map (fun i => of_nat i * step + start) (seq 0 n) ++ [stop]
  end.

(** [draw_circle3d] *)
Definition draw_circle3d {TF : Trig F} (screen : Surface) (camera : Camera)
    (c : Color) (center normal : Vector F) (radius : F) (n_points : nat)
    (width : Z) : Surface :=
  let '(orth1, orth2) := plane_basis normal in
  let angles := linspace zero (two * pi) (n_points + 1) in
  let point t :=
    vadd center
         (vscale radius (vadd (vscale (cosine t) orth1) (vscale (sine t) orth2))) in
  let starts := map point (removelast angles) in
  let ends := map point (tl angles) in
  fold_left (fun scr se => draw_line3d scr camera c (fst se) (snd se) width)
            (combine starts ends) screen.

End Drawing.

Arguments DrawCall F : clear implicits.
Arguments Surface F : clear implicits.

(** ** The frame: axes, nodes and circle, and the application *)

(** [np.round(x).astype(int)], the rounding of the label positions, and the
    literal [1.1] of the label points. *)
Class Pixels (F : Type) : Type := {
  eleven_tenths : F;
  round_int : F -> Z
}.

(** Rounding to the nearest integer, a tie going to the even one. *)
Definition Rround_half_even (x : R) : Z :=
  let f := (up x - 1)%Z in
  if Rlt_dec (x - IZR f) (1 / 2) then f
  else if Rlt_dec (1 / 2) (x - IZR f) then (f + 1)%Z
  else if Z.even f then f else (f + 1)%Z.

#[export] Instance R_pixels : Pixels R := {|
  eleven_tenths := (11 / 10)%R;
  round_int := Rround_half_even
|}.

(** The labels of the three axes. *)
Module Labels.
Import Stdlib.Strings.String.
Definition label : Set := string.
Definition x : label := "x"%string.
Definition y : label := "y"%string.
Definition z : label := "z"%string.
End Labels.

Section Frame.

Context {F : Type} {SF : Scalar F} {TF : Trig F} {PF : Pixels F}.
Local Open Scope scalar_scope.

Variable Camera : Type.
Variable world_to_screen : Camera -> Vector F -> option (F * F).

(** An integer of an integer array, as a number of the float arrays it is
    added to. *)
Definition of_int (z : Z) : F :=
  match z with
  | Z0 => of_nat 0
  | Zpos p => of_nat (Pos.to_nat p)
  | Zneg p => - of_nat (Pos.to_nat p)
  end.

(** [u * s], an array multiplied by a number on the right. *)
Definition vtimes (u : Vector F) (s : F) : Vector F :=
  let '(u1, u2, u3) := u in
  (u1 * s, u2 * s, u3 * s).

(** What is done to the screen, in order: the lines of [pygame.draw.line],
    the texts blitted, the fills, the calls of [Node.draw] (whose code is
    not among the sources) and the flips of the display. *)
Inductive ScreenCall : Type :=
| LineCall (call : DrawCall F)
| BlitText (font_size : Z) (label : Labels.label) (c : Color) (dest : Z * Z)
| FillCall (c : Color)
| NodeDraw (n : Node F) (camera : Camera)
| FlipCall.

Definition Screen : Type := list ScreenCall.

(** The line drawing functions on the screen: the calls they make are
    added to what the screen has seen. *)
Definition on_screen (draw : Surface F -> Surface F) (screen : Screen) : Screen :=
  screen ++ map LineCall (draw []).

(** [CoordinateAxes] *)
Record CoordinateAxes : Type := mkCoordinateAxes {
  axes_color : Color;
  text_offset : Z * Z;
  font_size : Z
}.

(** [CoordinateAxes.draw] *)
Definition CoordinateAxes_draw (self : CoordinateAxes) (screen : Screen)
    (camera : Camera) : Screen :=
  let origin := (of_nat 0, of_nat 0, of_nat 0) in
  fold_left
    (fun screen (axis : Vector F * Labels.label) =>
       let '(endpoint3d, label) := axis in
       let screen :=
         on_screen
           (fun s => draw_line3d world_to_screen s camera (axes_color self)
                                 origin endpoint3d 1)
           screen in
       let endpoint2d := world_to_screen camera (vtimes endpoint3d eleven_tenths) in
       match endpoint2d with
       | Some (px, py) =>
           let text_position :=
             (round_int (px + of_int (fst (text_offset self))),
              round_int (py + of_int (snd (text_offset self)))) in
           screen ++ [BlitText (font_size self) label (axes_color self)
                               text_position]
       | None => screen
       end)
    (combine [(of_nat 1, of_nat 0, of_nat 0);
              (of_nat 0, of_nat 1, of_nat 0);
              (of_nat 0, of_nat 0, of_nat 1)]
             [Labels.x; Labels.y; Labels.z])
    screen.

(** [Circumcircle.draw]: the nodes, then the center and the circle when
    there is one.  The state is the solver together with the screen, which
    keeps what was drawn before an exception. *)
Definition Circumcircle_draw (camera : Camera)
  : Method (Circumcircle F * Screen) unit :=
  fun state =>
    let '(self, screen) := state in
    let screen :=
      fold_left (fun screen node => screen ++ [NodeDraw node camera])
                (nodes self) screen in
    match get_circle_params self with
    | (Raises e, self) => (Raises e, (self, screen))
    | (Returns None, self) => (Returns tt, (self, screen))
    | (Returns (Some (center, normal, radius)), self) =>
        let center_node := mkNode center (Some (color self)) in
        let screen := screen ++ [NodeDraw center_node camera] in
        let screen :=
          on_screen
            (fun s => draw_circle3d world_to_screen s camera (color self)
                                    center normal radius 20 1)
            screen in
        (Returns tt, (self, screen))
    end.

End Frame.

Arguments ScreenCall F Camera : clear implicits.
Arguments LineCall {F Camera} call.
Arguments BlitText {F Camera} font_size label c dest.
Arguments FillCall {F Camera} c.
Arguments NodeDraw {F Camera} n camera.
Arguments FlipCall {F Camera}.
Arguments Screen F Camera : clear implicits.
Section Application.

Context {F : Type} {SF : Scalar F} {TF : Trig F} {PF : Pixels F}.

Variable Camera : Type.
Variable world_to_screen : Camera -> Vector F -> option (F * F).

(** The events of pygame and the input manager ([input.py]) are not among
    the sources.  An event is taken with the test [event.type ==
    pygame.QUIT]; the input manager is taken with its state and its method
    [handle_event], which may change the camera and the nodes it was given
    at its creation. *)
Variable Event : Type.
Variable is_quit : Event -> bool.
Variable InputManager : Type.
Variable handle_event :
  Event -> InputManager * Camera * list (Node F) ->
  InputManager * Camera * list (Node F).

(** [App].  The list [self.nodes] is the list of the circle: one object in
    the program, one field here. *)
Record App : Type := mkApp {
  app_camera : Camera;
  app_circle : Circumcircle F;
  app_axes : CoordinateAxes;
  app_input : InputManager
}.

(** [App.__init__], after the camera and the input manager are built. *)
Definition App_init (camera : Camera) (input : InputManager) : App :=
  let app_nodes :=
    [mkNode (of_nat 0, of_nat 0, of_nat 0) None;
     mkNode (of_nat 0, of_nat 1, of_nat 1) None;
     mkNode (of_nat 1, of_nat 0, of_nat 0) None] in
  mkApp camera (mkCircumcircle app_nodes RED)
        (mkCoordinateAxes BLACK (0, -15)%Z 16%Z) input.

(** [self.input_manager.handle_event(event)] *)
Definition App_handle (self : App) (event : Event) : App :=
  let '(input, camera, ns) :=
    handle_event event
      (app_input self, app_camera self, nodes (app_circle self)) in
  mkApp camera (mkCircumcircle ns (color (app_circle self))) (app_axes self)
        input.

(** [App.update], on the events that [pygame.event.get()] hands over. *)
Fixpoint App_update (events : list Event) (self : App) : bool * App :=
  match events with
  | [] => (true, self)
  | event :: rest =>
      if is_quit event then (false, self)
      else App_update rest (App_handle self event)
  end.

(** No event of the queue is a QUIT. *)
Definition no_quit (events : list Event) : bool :=
  forallb (fun event => negb (is_quit event)) events.

(** [App.draw] *)
Definition App_draw : Method (App * Screen F Camera) unit :=
  fun state =>
    let '(self, screen) := state in
    let screen := screen ++ [FillCall WHITE] in
    let screen :=
      CoordinateAxes_draw world_to_screen (app_axes self) screen
                          (app_camera self) in
    match Circumcircle_draw world_to_screen (app_camera self)
                            (app_circle self, screen) with
    | (o, (circle, screen)) =>
        (o, (mkApp (app_camera self) circle (app_axes self) (app_input self),
             screen))
    end.

(** The loop of [main], on the queues of events that the successive calls
    of [pygame.event.get()] return.  It ends with [true] when an update
    asked to stop, and with [false] when the queues given are used up. *)
Fixpoint main_loop (queues : list (list Event))
  : Method (App * Screen F Camera) bool :=
  fun state =>
    let '(app, screen) := state in
    match queues with
    | [] => (Returns false, (app, screen))
    | events :: later =>
        let '(go_on, app) := App_update events app in
        if go_on then
          match App_draw (app, screen) with
          | (Returns _, (app, screen)) =>
              main_loop later (app, screen ++ [FlipCall])
          | (Raises e, state) => (Raises e, state)
          end
        else (Returns true, (app, screen))
    end.

(** The number of queues before the first one that holds a QUIT. *)
Fixpoint frames_before_quit (queues : list (list Event)) : nat :=
  match queues with
  | [] => 0
  | events :: later =>
      if no_quit events then S (frames_before_quit later) else 0
  end.

End Application.
(** The angles and the points between which [draw_circle3d] draws, in exact
    arithmetic: point [i] of [n_points] is at the angle [2 pi i / n_points]
    in the basis of the plane. *)
Definition circle_angle (n_points i : nat) : R :=
  (INR i * (2 * PI / INR n_points))%R.

Definition circle_point (center normal : Vector R) (radius t : R) : Vector R :=
  let '(orth1, orth2) := plane_basis normal in
  vadd center
       (vscale radius (vadd (vscale (cos t) orth1) (vscale (sin t) orth2))).

(** A camera that looks along the third axis and keeps the first two
    coordinates of every point, for the examples. *)
Definition flat_camera (camera : unit) (p : Vector R) : option (R * R) :=
  let '(p1, p2, _) := p in Some (p1, p2).

Definition flat_proj (p : Vector R) : R * R :=
  let '(p1, p2, _) := p in (p1, p2).

Section FrameNotions.

Context {F : Type} {SF : Scalar F} {PF : Pixels F}.
Variable Camera : Type.
Variable world_to_screen : Camera -> Vector F -> option (F * F).

(** The three axes with their labels, as [CoordinateAxes.draw] zips them. *)
Definition labelled_axes : list (Vector F * Labels.label) :=
  combine [(of_nat 1, of_nat 0, of_nat 0);
           (of_nat 0, of_nat 1, of_nat 0);
           (of_nat 0, of_nat 0, of_nat 1)]
          [Labels.x; Labels.y; Labels.z].

(** The calls for one axis: its line, when the origin and the endpoint have
    a projection, and its label, when the label point has one. *)
Definition axis_calls (self : CoordinateAxes) (camera : Camera)
    (axis : Vector F * Labels.label) : list (ScreenCall F Camera) :=
  let '(endpoint3d, label) := axis in
  map LineCall
      (draw_line3d world_to_screen [] camera (axes_color self)
                   (of_nat 0, of_nat 0, of_nat 0) endpoint3d 1)
  ++ match world_to_screen camera (vtimes endpoint3d eleven_tenths) with
     | Some (px, py) =>
         [BlitText (font_size self) label (axes_color self)
                   (round_int (add px (of_int (fst (text_offset self)))),
                    round_int (add py (of_int (snd (text_offset self)))))]
     | None => []
     end.

(** Whether a point has a projection. *)
Definition visible (camera : Camera) (p : Vector F) : bool :=
  match world_to_screen camera p with Some _ => true | None => false end.

Definition is_line (call : ScreenCall F Camera) : bool :=
  match call with LineCall _ => true | _ => false end.

Definition is_label (call : ScreenCall F Camera) : bool :=
  match call with BlitText _ _ _ _ => true | _ => false end.

Definition is_flip (call : ScreenCall F Camera) : bool :=
  match call with FlipCall => true | _ => false end.

(** The number of frames shown: the flips of the display. *)
Definition frames_shown (screen : Screen F Camera) : nat :=
  length (filter is_flip screen).

End FrameNotions.

(** ** Notions the statements are written with *)

(** The positions the solver reads: those of the first three nodes. *)
Definition node_positions {F : Type} {SF : Scalar F} (self : Circumcircle F)
  : option (Vector F * Vector F * Vector F) :=
  match nodes self with
  | na :: nb :: nc :: _ => Some (position na, position nb, position nc)
  | _ => None
  end.

(** A solver over three nodes at the given positions. *)
Definition scene {F : Type} {SF : Scalar F} (a b c : Vector F) : Circumcircle F :=
  mkCircumcircle [mkNode a None; mkNode b None; mkNode c None] RED.





(** The real number a finite double stands for: [m * 2 ^ e] with its sign
    (and zero for the infinities and NaN, which stand for none). *)
Definition real_of (x : float) : R :=
  match Prim2SF x with
  | S754_finite s m e =>
      let v :=
        match e with
        | Zneg p => (IZR (Zpos m) / IZR (Z.pow_pos 2 p))%R
        | _ => IZR (Zpos m * 2 ^ e)
        end in
      if s then (- v)%R else v
  | _ => 0%R
  end.

Definition real_point (p : Vector float) : Vector R :=
  let '(x, y, z) := p in (real_of x, real_of y, real_of z).


Section ExactNotions.

Local Open Scope R_scope.

(** The determinant of a matrix given by its rows, and the product of a
    matrix with a vector. *)
Definition det (A : Matrix R) : R :=
  let '((a11, a12, a13), (a21, a22, a23), (a31, a32, a33)) := A in
  a11 * (a22 * a33 - a23 * a32)
  - a12 * (a21 * a33 - a23 * a31)
  + a13 * (a21 * a32 - a22 * a31).

Definition mat_vec (A : Matrix R) (x : Vector R) : Vector R :=
  let '(A1, A2, A3) := A in
  (np_dot A1 x, np_dot A2 x, np_dot A3 x).

(** Cramer's rule: the solution of a system with nonzero determinant. *)
Definition cramer (A : Matrix R) (b : Vector R) : Vector R :=
  let '((a11, a12, a13), (a21, a22, a23), (a31, a32, a33)) := A in
  let '(b1, b2, b3) := b in
  let d := det A in
  (det ((b1, a12, a13), (b2, a22, a23), (b3, a32, a33)) / d,
   det ((a11, b1, a13), (a21, b2, a23), (a31, b3, a33)) / d,
   det ((a11, a12, b1), (a21, a22, b2), (a31, a32, b3)) / d).

(** The Frobenius norm of a matrix. *)
Definition frobenius (A : Matrix R) : R :=
  let '(A1, A2, A3) := A in
  sqrt (np_dot A1 A1 + np_dot A2 A2 + np_dot A3 A3).

Definition det_rows (p q r : Row R) : R := det (coeffs p, coeffs q, coeffs r).

Definition minor (q r : Row R) : R := col2 q * col3 r - col3 q * col2 r.

(** [x] satisfies the equation of row [r]. *)
Definition sat (r : Row R) (x : Vector R) : Prop :=
  np_dot (coeffs r) x = rhs_of r.

(** The matrix [A] and the right-hand side [rhs] that [get_circle_params]
    builds from the three positions. *)
Definition system_matrix (a b c : Vector R) : Matrix R :=
  let '(a1, a2, a3) := a in
  let '(b1, b2, b3) := b in
  let '(c1, c2, c3) := c in
  ((b1 - a1, b2 - a2, b3 - a3),
   (c1 - b1, c2 - b2, c3 - b3),
   np_cross (vsub b a) (vsub c a)).

Definition system_rhs (a b c : Vector R) : Vector R :=
  (1 / 2 * (np_sum (vsquare b) - np_sum (vsquare a)),
   1 / 2 * (np_sum (vsquare c) - np_sum (vsquare b)),
   np_dot a (np_cross (vsub b a) (vsub c a))).

(** The value of [get_circle_params] in exact arithmetic, with the solve
    written as Cramer's rule. *)
Definition exact_circle (a b c : Vector R) : option (Circle R) :=
  if Req_dec_T (det (system_matrix a b c)) 0 then None
  else
    let center := cramer (system_matrix a b c) (system_rhs a b c) in
    let normal := np_cross (vsub b a) (vsub c a) in
    Some (center, vdiv normal (linalg_norm normal), linalg_norm (vsub center a)).

(** Three points are collinear when [b - a] and [c - a] are linearly
    dependent; two coincident points are a special case. *)
Definition collinear (a b c : Vector R) : Prop :=
  exists s t : R,
    (s <> 0 \/ t <> 0) /\
    vadd (vscale s (vsub b a)) (vscale t (vsub c a)) = (0, 0, 0).

(** The distance of two points. *)
Definition dist (p q : Vector R) : R := linalg_norm (vsub p q).

(** The geometry the statements below speak of, written out by components
    and not through the NumPy operations of the program: the inner product,
    the vector from [p] to [q], and the Euclidean distance. *)
Definition inner (u v : Vector R) : R :=
  let '(u1, u2, u3) := u in
  let '(v1, v2, v3) := v in
  u1 * v1 + u2 * v2 + u3 * v3.

Definition from_to (p q : Vector R) : Vector R :=
  let '(p1, p2, p3) := p in
  let '(q1, q2, q3) := q in
  (q1 - p1, q2 - p2, q3 - p3).

Definition euclidean (p q : Vector R) : R :=
  sqrt (inner (from_to p q) (from_to p q)).

(** A unit vector whose first component is small but not zero. *)
Definition tilted_normal : Vector R :=
  (2000000000 / 1000000000000000001,
   999999999999999999 / 1000000000000000001,
   0).

(** A circle moved by the vector [v]. *)
Definition translate_circle (v : Vector R) (circle : Circle R) : Circle R :=
  let '(center, normal, radius) := circle in
  (vadd center v, normal, radius).

(** A circle with its normal reversed, and a circle scaled by the factor
    [k] from the origin. *)
Definition flip_circle (circle : Circle R) : Circle R :=
  let '(center, normal, radius) := circle in
  (center, vscale (-1) normal, radius).

Definition scale_circle (k : R) (circle : Circle R) : Circle R :=
  let '(center, normal, radius) := circle in
  (vscale k center, normal, Rabs k * radius).

End ExactNotions.

(** ** Exact arithmetic: comparisons and the linear solve *)

Lemma Reqb_true (x y : R) : Reqb x y = true <-> x = y.
Proof. unfold Reqb. destruct (Req_dec_T x y); split; intros; congruence. Qed.

Lemma Reqb_false (x y : R) : Reqb x y = false <-> x <> y.
Proof. unfold Reqb. destruct (Req_dec_T x y); split; intros; congruence. Qed.

Lemma Rltb_true (x y : R) : Rltb x y = true <-> (x < y)%R.
Proof. unfold Rltb. destruct (Rlt_dec x y); split; intros; auto; discriminate. Qed.

Lemma Rltb_false (x y : R) : Rltb x y = false <-> (y <= x)%R.
Proof.
  unfold Rltb. destruct (Rlt_dec x y); split; intros; auto; try discriminate; lra.
Qed.

Lemma Rleb_true (x y : R) : Rleb x y = true <-> (x <= y)%R.
Proof. unfold Rleb. destruct (Rle_dec x y); split; intros; auto; discriminate. Qed.

Lemma Rleb_false (x y : R) : Rleb x y = false <-> (y < x)%R.
Proof.
  unfold Rleb. destruct (Rle_dec x y); split; intros; auto; try discriminate; lra.
Qed.

Ltac scalar_R :=
  cbn [zero one two half atol rtol add sub mul div opp absv root eqb ltb leb
       of_nat R_scalar] in *.

Ltac rows :=
  unfold eliminate1, eliminate2, col1, col2, col3, coeffs, rhs_of in *;
  cbn [fst snd] in *; scalar_R.

Ltac split_rows :=
  repeat match goal with
         | r : Row R |- _ => destruct r as [[[? ?] ?] ?]
         | v : Vector R |- _ => destruct v as [[? ?] ?]
         end.

Ltac case_Rltb :=
  match goal with
  | |- context [Rltb ?x ?y] =>
      let E := fresh "E" in
      destruct (Rltb x y) eqn:E;
      [apply Rltb_true in E | apply Rltb_false in E]
  end.

Section ExactSolve.

Local Open Scope R_scope.

Lemma Rabs_zero_le (x y : R) : Rabs x <= Rabs y -> y = 0 -> x = 0.
Proof.
  intros H ->. rewrite Rabs_R0 in H.
  pose proof (Rabs_pos x). destruct (Req_dec x 0) as [|N]; auto.
  apply Rabs_pos_lt in N. lra.
Qed.

(** The first pivot search returns the three rows in some order, the first
    of them with the largest entry in column 1. *)
Lemma pivot1_cases (r1 r2 r3 p q r : Row R) :
  pivot1 r1 r2 r3 = (p, q, r) ->
  ((p, q, r) = (r1, r2, r3) \/ (p, q, r) = (r2, r1, r3) \/ (p, q, r) = (r3, r2, r1))
  /\ Rabs (col1 q) <= Rabs (col1 p) /\ Rabs (col1 r) <= Rabs (col1 p).
Proof.
  unfold pivot1. scalar_R.
  repeat case_Rltb;
    intros H; inversion H; subst; (split; [auto | lra]).
Qed.

Lemma pivot2_cases (r2 r3 p q : Row R) :
  pivot2 r2 r3 = (p, q) ->
  ((p, q) = (r2, r3) \/ (p, q) = (r3, r2)) /\ Rabs (col2 q) <= Rabs (col2 p).
Proof.
  unfold pivot2. scalar_R.
  case_Rltb;
    intros H; inversion H; subst; (split; [auto | lra]).
Qed.



Lemma det_rows_swap12 (p q r : Row R) : det_rows q p r = - det_rows p q r.
Proof. split_rows. unfold det_rows, det. rows. ring. Qed.

Lemma det_rows_swap13 (p q r : Row R) : det_rows r q p = - det_rows p q r.
Proof. split_rows. unfold det_rows, det. rows. ring. Qed.

Lemma minor_swap (q r : Row R) : minor r q = - minor q r.
Proof. split_rows. unfold minor. rows. ring. Qed.

Lemma det_rows_eliminate1 (p q r : Row R) :
  col1 p <> 0 ->
  det_rows p q r = col1 p * minor (eliminate1 p q) (eliminate1 p r).
Proof. split_rows. unfold det_rows, det, minor. rows. intros. field. assumption. Qed.

Lemma minor_eliminate2 (p q : Row R) :
  col2 p <> 0 -> minor p q = col2 p * col3 (eliminate2 p q).
Proof. split_rows. unfold minor. rows. intros. field. assumption. Qed.

Lemma sat_eliminate1 (p r : Row R) (x : Vector R) :
  col1 p <> 0 -> sat p x -> sat (eliminate1 p r) x -> sat r x.
Proof.
  split_rows. unfold sat, np_dot. rows. intros N Hp Hr.
  match goal with
  | _ : context [?a * (1 / ?b)] |- _ =>
      assert (L : a = a * (1 / b) * b) by (field; assumption);
      set (l := a * (1 / b)) in *
  end.
  rewrite L. clearbody l. nra.
Qed.

Lemma sat_eliminate2 (p r : Row R) (x : Vector R) :
  col2 p <> 0 -> col1 p = 0 -> col1 r = 0 ->
  sat p x -> sat (eliminate2 p r) x -> sat r x.
Proof.
  split_rows. unfold sat, np_dot. rows. intros N Zp Zr Hp Hr. subst.
  match goal with
  | _ : context [?a * (1 / ?b)] |- _ =>
      assert (L : a = a * (1 / b) * b) by (field; assumption);
      set (l := a * (1 / b)) in *
  end.
  rewrite L. clearbody l. nra.
Qed.

Lemma back_substitute_sat (p1 p2 p3 : Row R) :
  col1 p1 <> 0 -> col2 p2 <> 0 -> col3 p3 <> 0 ->
  col1 p2 = 0 -> col1 p3 = 0 -> col2 p3 = 0 ->
  let x := back_substitute (p1, p2, p3) in
  sat p1 x /\ sat p2 x /\ sat p3 x.
Proof.
  split_rows. unfold sat, np_dot, back_substitute. rows.
  intros N1 N2 N3 -> -> ->. repeat split; field; auto.
Qed.



Lemma det_rows_col1_zero (p q r : Row R) :
  col1 p = 0 -> col1 q = 0 -> col1 r = 0 -> det_rows p q r = 0.
Proof.
  split_rows. unfold det_rows, det. rows. intros -> -> ->. ring.
Qed.

Lemma minor_col2_zero (p q : Row R) :
  col2 p = 0 -> col2 q = 0 -> minor p q = 0.
Proof.
  unfold minor. intros -> ->. ring.
Qed.

Lemma col1_eliminate1 (p r : Row R) : col1 (eliminate1 p r) = 0.
Proof. reflexivity. Qed.

Lemma col1_eliminate2 (p r : Row R) : col1 (eliminate2 p r) = 0.
Proof. reflexivity. Qed.

Lemma col2_eliminate2 (p r : Row R) : col2 (eliminate2 p r) = 0.
Proof. reflexivity. Qed.

(** What the factorisation yields in exact arithmetic: an error exactly on
    a singular matrix, and otherwise a triangular system with nonzero
    pivots whose solutions solve the original system. *)
Lemma getrf_spec (A : Matrix R) (b : Vector R) :
  match getrf A b with
  | Raises e => e = LinAlgError /\ det A = 0
  | Returns (p1, p2, p3) =>
      col1 p1 <> 0 /\ col2 p2 <> 0 /\ col3 p3 <> 0 /\
      col1 p2 = 0 /\ col1 p3 = 0 /\ col2 p3 = 0 /\
      det A <> 0 /\
      forall x, sat p1 x -> sat p2 x -> sat p3 x -> mat_vec A x = b
  end.
Proof.
  destruct A as [[A1 A2] A3], b as [[b1 b2] b3]. unfold getrf.
  destruct (pivot1 _ _ _) as [[p q] r] eqn:P1.
  apply pivot1_cases in P1 as [Perm [Hq Hr]].
  assert (D1 : det (A1, A2, A3) = det_rows p q r
               \/ det (A1, A2, A3) = - det_rows p q r).
  { destruct Perm as [E | [E | E]]; inversion E; subst.
    - left. reflexivity.
    - right. rewrite det_rows_swap12. unfold det_rows. cbn [coeffs fst]. ring.
    - right. rewrite det_rows_swap13. unfold det_rows. cbn [coeffs fst]. ring. }
  assert (S1 : forall x, sat p x -> sat q x -> sat r x ->
                         mat_vec (A1, A2, A3) x = (b1, b2, b3)).
  { unfold sat, mat_vec.
    destruct Perm as [E | [E | E]]; inversion E; subst;
      cbn [coeffs rhs_of fst snd]; intros x -> -> ->; reflexivity. }
  scalar_R.
  destruct (Reqb (col1 p) 0) eqn:T1.
  { apply Reqb_true in T1. split; [reflexivity|].
    assert (det_rows p q r = 0).
    { apply det_rows_col1_zero; eauto using Rabs_zero_le. }
    destruct D1; lra. }
  apply Reqb_false in T1.
  destruct (pivot2 _ _) as [p2 q2] eqn:P2.
  apply pivot2_cases in P2 as [Perm2 Hq2].
  pose proof (det_rows_eliminate1 p q r T1) as D2.
  assert (D3 : minor (eliminate1 p q) (eliminate1 p r) = minor p2 q2
               \/ minor (eliminate1 p q) (eliminate1 p r) = - minor p2 q2).
  { destruct Perm2 as [E | E]; inversion E; subst.
    - left. reflexivity.
    - right. rewrite (minor_swap (eliminate1 p q)). ring. }
  assert (Z2 : col1 p2 = 0 /\ col1 q2 = 0).
  { destruct Perm2 as [E | E]; inversion E; subst; split; reflexivity. }
  destruct Z2 as [Zp2 Zq2].
  assert (S2 : forall x, sat p x -> sat p2 x -> sat q2 x -> sat q x /\ sat r x).
  { intros x Hp Hp2 Hq2'.
    destruct Perm2 as [E | E]; inversion E; subst;
      split; eapply sat_eliminate1; eauto. }
  destruct (Reqb (col2 p2) 0) eqn:T2.
  { apply Reqb_true in T2. split; [reflexivity|].
    assert (minor p2 q2 = 0).
    { apply minor_col2_zero; eauto using Rabs_zero_le. }
    destruct D1 as [D1 | D1], D3 as [D3 | D3]; rewrite D1, D2, D3; nra. }
  apply Reqb_false in T2.
  pose proof (minor_eliminate2 p2 q2 T2) as D4.
  destruct (Reqb (col3 (eliminate2 p2 q2)) 0) eqn:T3.
  { apply Reqb_true in T3. split; [reflexivity|].
    destruct D1 as [D1 | D1], D3 as [D3 | D3]; rewrite D1, D2, D3, D4, T3; ring. }
  apply Reqb_false in T3.
  repeat split; auto.
  - assert (col1 p * (col2 p2 * col3 (eliminate2 p2 q2)) <> 0).
    { repeat apply Rmult_integral_contrapositive_currified; assumption. }
    destruct D1 as [D1 | D1], D3 as [D3 | D3]; rewrite D1, D2, D3, D4; lra.
  - intros x Hp Hp2 Hp3.
    assert (Hq2' : sat q2 x) by (eapply sat_eliminate2; eauto).
    destruct (S2 x Hp Hp2 Hq2'). auto.
Qed.

Lemma cramer_unique (A : Matrix R) (b x : Vector R) :
  det A <> 0 -> mat_vec A x = b -> x = cramer A b.
Proof.
  destruct A as [[[[a11 a12] a13] [[a21 a22] a23]] [[a31 a32] a33]].
  destruct x as [[x1 x2] x3]. intros N <-.
  unfold cramer, mat_vec, np_dot. scalar_R.
  set (d := det _) in *.
  assert (E : d = a11 * (a22 * a33 - a23 * a32) - a12 * (a21 * a33 - a23 * a31)
                  + a13 * (a21 * a32 - a22 * a31)) by reflexivity.
  clearbody d. unfold det.
  repeat f_equal; apply (Rmult_eq_reg_r d); auto; field_simplify; auto;
    rewrite E; ring.
Qed.

Lemma cramer_solves (A : Matrix R) (b : Vector R) :
  det A <> 0 -> mat_vec A (cramer A b) = b.
Proof.
  destruct A as [[[[a11 a12] a13] [[a21 a22] a23]] [[a31 a32] a33]].
  destruct b as [[b1 b2] b3]. intros N.
  unfold cramer, mat_vec, np_dot. scalar_R.
  set (d := det _) in *.
  assert (E : d = a11 * (a22 * a33 - a23 * a32) - a12 * (a21 * a33 - a23 * a31)
                  + a13 * (a21 * a32 - a22 * a31)) by reflexivity.
  clearbody d. unfold det.
  repeat f_equal; apply (Rmult_eq_reg_r d); auto; field_simplify; auto;
    rewrite E; ring.
Qed.

(** [np.linalg.solve] in exact arithmetic: [LinAlgError] on a singular
    matrix, the solution of the system otherwise. *)
Lemma linalg_solve_exact (A : Matrix R) (b : Vector R) :
  linalg_solve A b =
  if Req_dec_T (det A) 0 then Raises LinAlgError else Returns (cramer A b).
Proof.
  unfold linalg_solve. pose proof (getrf_spec A b) as G.
  destruct (getrf A b) as [[[p1 p2] p3] | e].
  - destruct G as (N1 & N2 & N3 & Z1 & Z2 & Z3 & D & S).
    destruct (Req_dec_T (det A) 0) as [|_]; [contradiction|].
    f_equal. apply cramer_unique; auto.
    destruct (back_substitute_sat p1 p2 p3 N1 N2 N3 Z1 Z2 Z3) as (H1 & H2 & H3).
    auto.
  - destruct G as [-> D]. destruct (Req_dec_T (det A) 0); [reflexivity | contradiction].
Qed.

End ExactSolve.

(** ** Exact arithmetic: the circle through three points *)

Section ExactCircle.

Local Open Scope R_scope.

Lemma get_circle_params_exact (self : Circumcircle R) (a b c : Vector R) :
  node_positions self = Some (a, b, c) ->
  get_circle_params self = (Returns (exact_circle a b c), self).
Proof.
  unfold node_positions. destruct self as [ns col]. cbn [nodes].
  destruct ns as [|na [|nb [|nc tl]]]; try discriminate.
  intros H. inversion H; subst. clear H.
  unfold get_circle_params, node_position, bind, try_except, call, ret, gets, raise.
  cbn [nodes nth_error].
  destruct (position na) as [[a1 a2] a3] eqn:Ea.
  destruct (position nb) as [[b1 b2] b3] eqn:Eb.
  destruct (position nc) as [[c1 c2] c3] eqn:Ec.
  change (linalg_solve _ _) with
    (linalg_solve (system_matrix (a1, a2, a3) (b1, b2, b3) (c1, c2, c3))
                  (system_rhs (a1, a2, a3) (b1, b2, b3) (c1, c2, c3))).
  rewrite linalg_solve_exact. unfold exact_circle.
  destruct (Req_dec_T _ 0); reflexivity.
Qed.

Lemma det_system_matrix (a b c : Vector R) :
  det (system_matrix a b c) =
  np_dot (np_cross (vsub b a) (vsub c a)) (np_cross (vsub b a) (vsub c a)).
Proof.
  split_rows. unfold det, system_matrix, np_cross, vsub, np_dot. scalar_R. ring.
Qed.

Lemma np_dot_self_nonneg (u : Vector R) : 0 <= np_dot u u.
Proof. split_rows. unfold np_dot. scalar_R. nra. Qed.

Lemma np_dot_self_zero (u : Vector R) : np_dot u u = 0 <-> u = (0, 0, 0).
Proof.
  split_rows. unfold np_dot. scalar_R. split.
  - intros H. repeat f_equal; nra.
  - intros [= -> -> ->]. lra.
Qed.

Lemma linalg_norm_zero (u : Vector R) : linalg_norm u = 0 <-> u = (0, 0, 0).
Proof.
  unfold linalg_norm. scalar_R. rewrite <- np_dot_self_zero. split.
  - intros H. apply sqrt_eq_0; auto using np_dot_self_nonneg.
  - intros ->. apply sqrt_0.
Qed.

Lemma linalg_norm_nonneg (u : Vector R) : 0 <= linalg_norm u.
Proof. unfold linalg_norm. scalar_R. apply sqrt_pos. Qed.

Lemma linalg_norm_pos (u : Vector R) : u <> (0, 0, 0) -> 0 < linalg_norm u.
Proof.
  intros N. pose proof (linalg_norm_nonneg u).
  destruct (Req_dec (linalg_norm u) 0) as [E|]; [|lra].
  apply linalg_norm_zero in E. contradiction.
Qed.

(** Collinear points are those whose cross product vanishes. *)
Lemma collinear_cross (a b c : Vector R) :
  collinear a b c <-> np_cross (vsub b a) (vsub c a) = (0, 0, 0).
Proof.
  unfold collinear. generalize (vsub b a) (vsub c a). clear.
  intros [[u1 u2] u3] [[v1 v2] v3].
  unfold np_cross, vadd, vscale. scalar_R. split.
  - intros (s & t & N & E). injection E as E1 E2 E3.
    assert (S1 : s * (u2 * v3 - u3 * v2) = 0).
    { replace (s * (u2 * v3 - u3 * v2))
        with (v3 * (s * u2 + t * v2) - v2 * (s * u3 + t * v3)) by ring.
      rewrite E2, E3. ring. }
    assert (S2 : s * (u3 * v1 - u1 * v3) = 0).
    { replace (s * (u3 * v1 - u1 * v3))
        with (v1 * (s * u3 + t * v3) - v3 * (s * u1 + t * v1)) by ring.
      rewrite E1, E3. ring. }
    assert (S3 : s * (u1 * v2 - u2 * v1) = 0).
    { replace (s * (u1 * v2 - u2 * v1))
        with (v2 * (s * u1 + t * v1) - v1 * (s * u2 + t * v2)) by ring.
      rewrite E1, E2. ring. }
    assert (T1 : t * (u2 * v3 - u3 * v2) = 0).
    { replace (t * (u2 * v3 - u3 * v2))
        with (u2 * (s * u3 + t * v3) - u3 * (s * u2 + t * v2)) by ring.
      rewrite E2, E3. ring. }
    assert (T2 : t * (u3 * v1 - u1 * v3) = 0).
    { replace (t * (u3 * v1 - u1 * v3))
        with (u3 * (s * u1 + t * v1) - u1 * (s * u3 + t * v3)) by ring.
      rewrite E1, E3. ring. }
    assert (T3 : t * (u1 * v2 - u2 * v1) = 0).
    { replace (t * (u1 * v2 - u2 * v1))
        with (u1 * (s * u2 + t * v2) - u2 * (s * u1 + t * v1)) by ring.
      rewrite E1, E2. ring. }
    destruct N as [N | N]; repeat f_equal.
    + destruct (Rmult_integral _ _ S1); [contradiction | assumption].
    + destruct (Rmult_integral _ _ S2); [contradiction | assumption].
    + destruct (Rmult_integral _ _ S3); [contradiction | assumption].
    + destruct (Rmult_integral _ _ T1); [contradiction | assumption].
    + destruct (Rmult_integral _ _ T2); [contradiction | assumption].
    + destruct (Rmult_integral _ _ T3); [contradiction | assumption].
  - intros E. injection E as E1 E2 E3.
    destruct (Req_dec v1 0) as [Z1 | N1];
      [destruct (Req_dec v2 0) as [Z2 | N2];
       [destruct (Req_dec v3 0) as [Z3 | N3] |] |].
    + exists 0, 1. split; [right; lra|]. subst. repeat f_equal; ring.
    + exists v3, (- u3). split; [left; assumption|]. repeat f_equal; lra.
    + exists v2, (- u2). split; [left; assumption|]. repeat f_equal; lra.
    + exists v1, (- u1). split; [left; assumption|]. repeat f_equal; lra.
Qed.



Lemma center_equidistant (a b c x : Vector R) :
  mat_vec (system_matrix a b c) x = system_rhs a b c ->
  np_dot (vsub x a) (vsub x a) = np_dot (vsub x b) (vsub x b)
  /\ np_dot (vsub x b) (vsub x b) = np_dot (vsub x c) (vsub x c).
Proof.
  split_rows.
  unfold mat_vec, system_matrix, system_rhs, np_dot, np_sum, vsquare, vsub, np_cross.
  scalar_R. intros H. injection H as H1 H2 H3. split; lra.
Qed.

Lemma exact_circle_some (a b c : Vector R) :
  np_cross (vsub b a) (vsub c a) <> (0, 0, 0) ->
  let center := cramer (system_matrix a b c) (system_rhs a b c) in
  let normal := np_cross (vsub b a) (vsub c a) in
  exact_circle a b c =
    Some (center, vdiv normal (linalg_norm normal), linalg_norm (vsub center a))
  /\ mat_vec (system_matrix a b c) center = system_rhs a b c.
Proof.
  intros N center normal. unfold exact_circle.
  assert (D : det (system_matrix a b c) <> 0).
  { rewrite det_system_matrix. rewrite np_dot_self_zero. exact N. }
  destruct (Req_dec_T _ 0); [contradiction|].
  split; [reflexivity|]. apply cramer_solves. assumption.
Qed.

Lemma exact_circle_none (a b c : Vector R) :
  exact_circle a b c = None <-> np_cross (vsub b a) (vsub c a) = (0, 0, 0).
Proof.
  unfold exact_circle. rewrite det_system_matrix, <- np_dot_self_zero.
  destruct (Req_dec_T _ 0); split; intros; auto; try discriminate; contradiction.
Qed.

Lemma exact_circle_inv (a b c center normal : Vector R) (radius : R) :
  exact_circle a b c = Some (center, normal, radius) ->
  np_cross (vsub b a) (vsub c a) <> (0, 0, 0)
  /\ center = cramer (system_matrix a b c) (system_rhs a b c)
  /\ normal = vdiv (np_cross (vsub b a) (vsub c a))
                   (linalg_norm (np_cross (vsub b a) (vsub c a)))
  /\ radius = linalg_norm (vsub center a).
Proof.
  intros H.
  assert (N : np_cross (vsub b a) (vsub c a) <> (0, 0, 0)).
  { intros Z. apply exact_circle_none in Z. congruence. }
  destruct (exact_circle_some a b c N) as [E _].
  rewrite E in H. injection H as <- <- <-. auto.
Qed.

Lemma unit_vdiv_norm (u : Vector R) :
  u <> (0, 0, 0) -> linalg_norm (vdiv u (linalg_norm u)) = 1.
Proof.
  intros N. pose proof (linalg_norm_pos N) as P.
  assert (S : linalg_norm u * linalg_norm u = np_dot u u).
  { unfold linalg_norm. scalar_R. apply sqrt_sqrt, np_dot_self_nonneg. }
  set (s := linalg_norm u) in *. clearbody s.
  unfold linalg_norm. destruct u as [[u1 u2] u3].
  unfold vdiv, np_dot in *. scalar_R.
  replace (u1 / s * (u1 / s) + u2 / s * (u2 / s) + u3 / s * (u3 / s))
    with ((u1 * u1 + u2 * u2 + u3 * u3) / (s * s)) by (field; lra).
  rewrite <- S. replace (s * s / (s * s)) with 1 by (field; lra).
  apply sqrt_1.
Qed.

Lemma np_dot_vdiv (u v : Vector R) (s : R) :
  np_dot (vdiv u s) v = np_dot u v / s.
Proof.
  split_rows. unfold np_dot, vdiv. scalar_R. unfold Rdiv. ring.
Qed.

Lemma np_cross_orthogonal (u v : Vector R) :
  np_dot (np_cross u v) u = 0 /\ np_dot (np_cross u v) v = 0.
Proof.
  split_rows. unfold np_dot, np_cross. scalar_R. split; ring.
Qed.

Lemma dist_eq (p q p' q' : Vector R) :
  np_dot (vsub p q) (vsub p q) = np_dot (vsub p' q') (vsub p' q') ->
  dist p q = dist p' q'.
Proof. unfold dist, linalg_norm. intros ->. reflexivity. Qed.

Lemma vsub_zero (p q : Vector R) : vsub p q = (0, 0, 0) -> p = q.
Proof.
  split_rows. unfold vsub. scalar_R. intros [= H1 H2 H3].
  repeat f_equal; lra.
Qed.

Lemma coincident_cross_12 (a c : Vector R) :
  np_cross (vsub a a) (vsub c a) = (0, 0, 0).
Proof. split_rows. unfold np_cross, vsub. scalar_R. repeat f_equal; ring. Qed.

End ExactCircle.

(** ** The properties of the specification *)

Unset Implicit Arguments.

Section Claims.
Local Open Scope R_scope.

Lemma coincident_cross_13 (a b : Vector R) :
  np_cross (vsub b a) (vsub a a) = (0, 0, 0).
Proof. split_rows. unfold np_cross, vsub. scalar_R. repeat f_equal; ring. Qed.

Lemma coincident_cross_23 (a b : Vector R) :
  np_cross (vsub b a) (vsub b a) = (0, 0, 0).
Proof. split_rows. unfold np_cross, vsub. scalar_R. repeat f_equal; ring. Qed.

Lemma inner_np_dot (u v : Vector R) : inner u v = np_dot u v.
Proof. split_rows. reflexivity. Qed.

Lemma from_to_vsub (p q : Vector R) : from_to p q = vsub q p.
Proof. split_rows. reflexivity. Qed.

Lemma dist_euclidean (p q : Vector R) : dist p q = euclidean p q.
Proof.
  split_rows. unfold dist, euclidean, linalg_norm, np_dot, vsub, inner, from_to.
  scalar_R. f_equal. ring.
Qed.

Lemma np_dot_comm (u v : Vector R) : np_dot u v = np_dot v u.
Proof. split_rows. unfold np_dot. scalar_R. ring. Qed.

Lemma unit_np_dot (u : Vector R) : linalg_norm u = 1 <-> np_dot u u = 1.
Proof.
  unfold linalg_norm. scalar_R. split; intros H.
  - rewrite <- (sqrt_sqrt (np_dot u u)) by apply np_dot_self_nonneg.
    rewrite H. ring.
  - rewrite H. apply sqrt_1.
Qed.

Lemma linalg_solve_raises {F : Type} {SF : Scalar F}
    (A : Matrix F) (b : Vector F) (e : exn) :
  linalg_solve A b = Raises e -> e = LinAlgError.
Proof.
  unfold linalg_solve, getrf.
  destruct A as [[A1 A2] A3], b as [[b1 b2] b3].
  destruct (pivot1 _ _ _) as [[p1 q1] r1].
  destruct (eqb (col1 p1) zero); [congruence|].
  destruct (pivot2 _ _) as [p2 q2].
  destruct (eqb (col2 p2) zero); [congruence|].
  destruct (eqb (col3 _) zero); [congruence | discriminate].
Qed.

Lemma get_circle_params_some_inv (self self' : Circumcircle R)
    (a b c center normal : Vector R) (radius : R) :
  node_positions self = Some (a, b, c) ->
  get_circle_params self = (Returns (Some (center, normal, radius)), self') ->
  exact_circle a b c = Some (center, normal, radius).
Proof.
  intros P H. rewrite (get_circle_params_exact self P) in H. congruence.
Qed.

(** The scenario of the specification in exact arithmetic. *)
Lemma scenario_cross :
  np_cross (vsub (0, 1, 1) (0, 0, 0)) (vsub (1, 0, 0) (0, 0, 0)) = (0, 1, -1).
Proof. unfold np_cross, vsub. scalar_R. repeat f_equal; ring. Qed.

Lemma scenario_not_collinear : ~ collinear (0, 0, 0) (0, 1, 1) (1, 0, 0).
Proof.
  rewrite collinear_cross, scenario_cross. intros [= H1 H2]. lra.
Qed.

Lemma scenario_exact :
  exact_circle (0, 0, 0) (0, 1, 1) (1, 0, 0) =
  Some ((1 / 2, 1 / 2, 1 / 2),
        (0 / sqrt 2, 1 / sqrt 2, -1 / sqrt 2),
        sqrt (3 / 4)).
Proof.
  assert (N : np_cross (vsub (0, 1, 1) (0, 0, 0)) (vsub (1, 0, 0) (0, 0, 0))
              <> (0, 0, 0)).
  { rewrite scenario_cross. intros [= H1 H2]. lra. }
  destruct (exact_circle_some _ _ _ N) as [E _]. rewrite E. clear E N.
  rewrite scenario_cross.
  assert (C : cramer (system_matrix (0, 0, 0) (0, 1, 1) (1, 0, 0))
                     (system_rhs (0, 0, 0) (0, 1, 1) (1, 0, 0))
              = (1 / 2, 1 / 2, 1 / 2)).
  { unfold cramer, system_matrix, system_rhs, det, np_cross, vsub, np_dot,
      np_sum, vsquare. scalar_R. repeat f_equal; field. }
  rewrite C.
  assert (S2 : linalg_norm (0, 1, -1) = sqrt 2).
  { unfold linalg_norm, np_dot. scalar_R. f_equal. ring. }
  assert (S3 : linalg_norm (vsub (1 / 2, 1 / 2, 1 / 2) (0, 0, 0)) = sqrt (3 / 4)).
  { unfold linalg_norm, np_dot, vsub. scalar_R. f_equal. field. }
  rewrite S2, S3. reflexivity.
Qed.

(** The scenario moved by the vector (1,2,3). *)
Lemma shifted_cross :
  np_cross (vsub (1, 3, 4) (1, 2, 3)) (vsub (2, 2, 3) (1, 2, 3)) = (0, 1, -1).
Proof. unfold np_cross, vsub. scalar_R. repeat f_equal; ring. Qed.

Lemma shifted_not_collinear : ~ collinear (1, 2, 3) (1, 3, 4) (2, 2, 3).
Proof.
  rewrite collinear_cross, shifted_cross. intros [= H1 H2]. lra.
Qed.

Lemma shifted_exact :
  exact_circle (1, 2, 3) (1, 3, 4) (2, 2, 3) =
  Some ((3 / 2, 5 / 2, 7 / 2),
        (0 / sqrt 2, 1 / sqrt 2, -1 / sqrt 2),
        sqrt (3 / 4)).
Proof.
  assert (N : np_cross (vsub (1, 3, 4) (1, 2, 3)) (vsub (2, 2, 3) (1, 2, 3))
              <> (0, 0, 0)).
  { rewrite shifted_cross. intros [= H1 H2]. lra. }
  destruct (exact_circle_some _ _ _ N) as [E _]. rewrite E. clear E N.
  rewrite shifted_cross.
  assert (C : cramer (system_matrix (1, 2, 3) (1, 3, 4) (2, 2, 3))
                     (system_rhs (1, 2, 3) (1, 3, 4) (2, 2, 3))
              = (3 / 2, 5 / 2, 7 / 2)).
  { unfold cramer, system_matrix, system_rhs, det, np_cross, vsub, np_dot,
      np_sum, vsquare. scalar_R. repeat f_equal; field. }
  rewrite C.
  assert (S2 : linalg_norm (0, 1, -1) = sqrt 2).
  { unfold linalg_norm, np_dot. scalar_R. f_equal. ring. }
  assert (S3 : linalg_norm (vsub (3 / 2, 5 / 2, 7 / 2) (1, 2, 3)) = sqrt (3 / 4)).
  { unfold linalg_norm, np_dot, vsub. scalar_R. f_equal. field. }
  rewrite S2, S3. reflexivity.
Qed.

Lemma shifted_run :
  get_circle_params (scene (1, 2, 3) (1, 3, 4) (2, 2, 3)) =
  (Returns (Some ((3 / 2, 5 / 2, 7 / 2),
                  (0 / sqrt 2, 1 / sqrt 2, -1 / sqrt 2),
                  sqrt (3 / 4))),
   scene (1, 2, 3) (1, 3, 4) (2, 2, 3)).
Proof.
  rewrite (get_circle_params_exact (scene (1, 2, 3) (1, 3, 4) (2, 2, 3))
             (a := (1, 2, 3)) (b := (1, 3, 4)) (c := (2, 2, 3)) eq_refl).
  rewrite shifted_exact. reflexivity.
Qed.

(** X16: in exact arithmetic, for three positions that are not collinear,
    [get_circle_params] returns a circle whose center has the same
    Euclidean distance, the radius, to the three positions; its normal has
    length one and its radius is positive. *)
Theorem circle_through_noncollinear_points
    (self : Circumcircle R) (a b c : Vector R) :
  node_positions self = Some (a, b, c) ->
  ~ collinear a b c ->
  exists (center normal : Vector R) (radius : R),
    get_circle_params self = (Returns (Some (center, normal, radius)), self)
    /\ euclidean center a = radius
    /\ euclidean center b = radius
    /\ euclidean center c = radius
    /\ inner normal normal = 1
    /\ 0 < radius.
Proof.
  intros P NC. rewrite collinear_cross in NC.
  destruct (exact_circle_some a b c NC) as [E S].
  apply center_equidistant in S. destruct S as [Sab Sbc].
  eexists _, _, _. rewrite (get_circle_params_exact self P), E.
  split; [reflexivity|].
  set (center := cramer _ _) in *.
  assert (Db : dist center b = dist center a) by (symmetry; apply dist_eq; assumption).
  assert (Dc : dist center c = dist center a).
  { symmetry. apply dist_eq. congruence. }
  rewrite <- !dist_euclidean, inner_np_dot, <- unit_np_dot.
  repeat split; auto using unit_vdiv_norm.
  change (0 < dist center a).
  pose proof (linalg_norm_nonneg (vsub center a)) as G. unfold dist.
  destruct (Req_dec (linalg_norm (vsub center a)) 0) as [Z|]; [|lra].
  exfalso. apply NC.
  assert (Za : center = a) by (apply vsub_zero, linalg_norm_zero; exact Z).
  assert (Zb : center = b).
  { apply vsub_zero, linalg_norm_zero. fold (dist center b). rewrite Db. exact Z. }
  assert (Hab : b = a) by congruence. rewrite Hab. apply coincident_cross_12.
Qed.

Lemma circle_through_noncollinear_points_witness :
  exists (center normal : Vector R) (radius : R),
    get_circle_params (scene (1, 2, 3) (1, 3, 4) (2, 2, 3)) =
      (Returns (Some (center, normal, radius)),
       scene (1, 2, 3) (1, 3, 4) (2, 2, 3))
    /\ euclidean center (1, 2, 3) = radius
    /\ euclidean center (1, 3, 4) = radius
    /\ euclidean center (2, 2, 3) = radius
    /\ inner normal normal = 1
    /\ 0 < radius.
Proof.
  apply (circle_through_noncollinear_points
           (scene (1, 2, 3) (1, 3, 4) (2, 2, 3)) (1, 2, 3) (1, 3, 4) (2, 2, 3)).
  - reflexivity.
  - exact shifted_not_collinear.
Defined.

(** X17: in exact arithmetic, on a collinear triple, and so on a triple
    with two coincident positions, [get_circle_params] returns [None]. *)
Theorem collinear_points_degenerate
    (self : Circumcircle R) (a b c : Vector R) :
  node_positions self = Some (a, b, c) ->
  collinear a b c \/ a = b \/ b = c \/ a = c ->
  get_circle_params self = (Returns None, self).
Proof.
  intros P H. rewrite (get_circle_params_exact self P).
  do 2 f_equal. apply exact_circle_none.
  destruct H as [H | [H | [H | H]]].
  - apply collinear_cross. exact H.
  - subst b. apply coincident_cross_12.
  - subst c. apply coincident_cross_23.
  - subst c. apply coincident_cross_13.
Qed.

Lemma collinear_points_degenerate_witness :
  get_circle_params (scene (0, 0, 0) (1, 0, 0) (2, 0, 0)) =
    (Returns None, scene (0, 0, 0) (1, 0, 0) (2, 0, 0))
  /\ get_circle_params (scene (0, 0, 0) (0, 0, 0) (1, 1, 1)) =
    (Returns None, scene (0, 0, 0) (0, 0, 0) (1, 1, 1)).
Proof.
  split.
  - apply (collinear_points_degenerate
             (scene (0, 0, 0) (1, 0, 0) (2, 0, 0)) (0, 0, 0) (1, 0, 0) (2, 0, 0)).
    + reflexivity.
    + left. exists 2, (-1). split; [left; lra|].
      unfold vadd, vscale, vsub. scalar_R. repeat f_equal; lra.
  - apply (collinear_points_degenerate
             (scene (0, 0, 0) (0, 0, 0) (1, 1, 1)) (0, 0, 0) (0, 0, 0) (1, 1, 1)).
    + reflexivity.
    + right. left. reflexivity.
Defined.

(** X18: in exact arithmetic, the normal of a returned circle has length
    one and is orthogonal to the vector from [a] to [b] and to the vector
    from [a] to [c]. *)
Theorem returned_normal_unit_orthogonal
    (self self' : Circumcircle R) (a b c center normal : Vector R) (radius : R) :
  node_positions self = Some (a, b, c) ->
  get_circle_params self = (Returns (Some (center, normal, radius)), self') ->
  inner normal normal = 1
  /\ inner normal (from_to a b) = 0
  /\ inner normal (from_to a c) = 0.
Proof.
  intros P H. apply (get_circle_params_some_inv _ _ _ _ _ _ _ _ P) in H.
  apply exact_circle_inv in H. destruct H as (N & _ & -> & _).
  destruct (np_cross_orthogonal (vsub b a) (vsub c a)) as [O1 O2].
  rewrite !inner_np_dot, !from_to_vsub, <- unit_np_dot.
  rewrite !np_dot_vdiv, O1, O2. unfold Rdiv. rewrite Rmult_0_l.
  auto using unit_vdiv_norm.
Qed.

Lemma scenario_run :
  get_circle_params (scene (0, 0, 0) (0, 1, 1) (1, 0, 0)) =
  (Returns (Some ((1 / 2, 1 / 2, 1 / 2),
                  (0 / sqrt 2, 1 / sqrt 2, -1 / sqrt 2),
                  sqrt (3 / 4))),
   scene (0, 0, 0) (0, 1, 1) (1, 0, 0)).
Proof.
  rewrite (get_circle_params_exact (scene (0, 0, 0) (0, 1, 1) (1, 0, 0))
             (a := (0, 0, 0)) (b := (0, 1, 1)) (c := (1, 0, 0)) eq_refl).
  rewrite scenario_exact. reflexivity.
Qed.

Lemma returned_normal_unit_orthogonal_witness :
  inner (0 / sqrt 2, 1 / sqrt 2, -1 / sqrt 2)
        (0 / sqrt 2, 1 / sqrt 2, -1 / sqrt 2) = 1
  /\ inner (0 / sqrt 2, 1 / sqrt 2, -1 / sqrt 2) (from_to (1, 2, 3) (1, 3, 4)) = 0
  /\ inner (0 / sqrt 2, 1 / sqrt 2, -1 / sqrt 2) (from_to (1, 2, 3) (2, 2, 3)) = 0.
Proof.
  apply (returned_normal_unit_orthogonal
           (scene (1, 2, 3) (1, 3, 4) (2, 2, 3))
           (scene (1, 2, 3) (1, 3, 4) (2, 2, 3))
           (1, 2, 3) (1, 3, 4) (2, 2, 3)
           (3 / 2, 5 / 2, 7 / 2) (0 / sqrt 2, 1 / sqrt 2, -1 / sqrt 2)
           (sqrt (3 / 4))).
  - reflexivity.
  - exact shifted_run.
Defined.



(** X19: in exact arithmetic, when a circle is returned, the cross product
    of [b - a] and [c - a] is not the zero vector and its length, by which
    the returned normal is divided, is not zero. *)
Theorem normal_nonzero_when_circle
    (self self' : Circumcircle R) (a b c center normal : Vector R) (radius : R) :
  node_positions self = Some (a, b, c) ->
  get_circle_params self = (Returns (Some (center, normal, radius)), self') ->
  np_cross (vsub b a) (vsub c a) <> (0, 0, 0)
  /\ linalg_norm (np_cross (vsub b a) (vsub c a)) <> 0
  /\ normal = vdiv (np_cross (vsub b a) (vsub c a))
                   (linalg_norm (np_cross (vsub b a) (vsub c a))).
Proof.
  intros P H. apply (get_circle_params_some_inv _ _ _ _ _ _ _ _ P) in H.
  apply exact_circle_inv in H. destruct H as (N & _ & -> & _).
  repeat split; auto.
  rewrite linalg_norm_zero. exact N.
Qed.

Lemma normal_nonzero_when_circle_witness :
  np_cross (vsub (0, 1, 1) (0, 0, 0)) (vsub (1, 0, 0) (0, 0, 0)) <> (0, 0, 0)
  /\ linalg_norm (np_cross (vsub (0, 1, 1) (0, 0, 0)) (vsub (1, 0, 0) (0, 0, 0)))
     <> 0
  /\ (0 / sqrt 2, 1 / sqrt 2, -1 / sqrt 2) =
     vdiv (np_cross (vsub (0, 1, 1) (0, 0, 0)) (vsub (1, 0, 0) (0, 0, 0)))
          (linalg_norm
             (np_cross (vsub (0, 1, 1) (0, 0, 0)) (vsub (1, 0, 0) (0, 0, 0)))).
Proof.
  apply (normal_nonzero_when_circle
           (scene (0, 0, 0) (0, 1, 1) (1, 0, 0))
           (scene (0, 0, 0) (0, 1, 1) (1, 0, 0))
           (0, 0, 0) (0, 1, 1) (1, 0, 0)
           (1 / 2, 1 / 2, 1 / 2) (0 / sqrt 2, 1 / sqrt 2, -1 / sqrt 2)
           (sqrt (3 / 4))).
  - reflexivity.
  - exact scenario_run.
Defined.

(** A family of thin triangles: (0,0,0), (1,0,0), (0,t,0). *)
Lemma thin_cross (t : R) :
  np_cross (vsub (1, 0, 0) (0, 0, 0)) (vsub (0, t, 0) (0, 0, 0)) = (0, 0, t).
Proof. unfold np_cross, vsub. scalar_R. repeat f_equal; ring. Qed.

Lemma thin_det (t : R) :
  det (system_matrix (0, 0, 0) (1, 0, 0) (0, t, 0)) = t * t.
Proof. rewrite det_system_matrix, thin_cross. unfold np_dot. scalar_R. ring. Qed.

Lemma thin_norm (t : R) : 0 <= t -> linalg_norm (0, 0, t) = t.
Proof.
  intros H. unfold linalg_norm, np_dot. scalar_R.
  replace (0 * 0 + 0 * 0 + t * t) with (t * t) by ring.
  apply sqrt_square. exact H.
Qed.

Lemma thin_frobenius (t : R) :
  1 <= frobenius (system_matrix (0, 0, 0) (1, 0, 0) (0, t, 0)).
Proof.
  unfold frobenius, system_matrix. rewrite thin_cross.
  unfold np_dot, vsub. scalar_R.
  rewrite <- sqrt_1 at 1. apply sqrt_le_1_alt. nra.
Qed.

Lemma thin_returns_circle (t : R) :
  t <> 0 ->
  exists circle : Circle R,
    get_circle_params (scene (0, 0, 0) (1, 0, 0) (0, t, 0)) =
    (Returns (Some circle), scene (0, 0, 0) (1, 0, 0) (0, t, 0)).
Proof.
  intros N.
  rewrite (get_circle_params_exact (scene (0, 0, 0) (1, 0, 0) (0, t, 0))
             (a := (0, 0, 0)) (b := (1, 0, 0)) (c := (0, t, 0)) eq_refl).
  destruct (exact_circle_some (0, 0, 0) (1, 0, 0) (0, t, 0)) as [E _].
  { rewrite thin_cross. intros [= H]. contradiction. }
  rewrite E. eexists. reflexivity.
Qed.

Lemma small_positive (eps : R) :
  0 < eps -> let t := eps / (1 + eps) in 0 < t /\ t < eps /\ t < 1.
Proof.
  intros H t. unfold t.
  assert (P : 0 < 1 + eps) by lra.
  repeat split.
  - apply Rdiv_lt_0_compat; lra.
  - apply (Rmult_lt_reg_r (1 + eps)); [lra|].
    unfold Rdiv. rewrite Rmult_assoc, Rinv_l by lra. nra.
  - apply (Rmult_lt_reg_r (1 + eps)); [lra|].
    unfold Rdiv. rewrite Rmult_assoc, Rinv_l by lra. nra.
Qed.

(** X20: in exact arithmetic, for no positive epsilon does the solver
    return [None] on every system whose determinant is below epsilon times
    the norm of the matrix. *)
Lemma no_relative_singularity_threshold :
  ~ exists eps : R,
      0 < eps /\
      forall (self : Circumcircle R) (a b c : Vector R),
        node_positions self = Some (a, b, c) ->
        Rabs (det (system_matrix a b c)) < eps * frobenius (system_matrix a b c) ->
        get_circle_params self = (Returns None, self).
Proof.
  intros (eps & Heps & H).
  destruct (small_positive eps Heps) as (T0 & T1 & T2).
  set (t := eps / (1 + eps)) in *.
  specialize (H (scene (0, 0, 0) (1, 0, 0) (0, t, 0)) (0, 0, 0) (1, 0, 0) (0, t, 0)
                eq_refl).
  destruct (thin_returns_circle t) as [circle E]; [lra|].
  rewrite E in H. 
  assert (A : Rabs (det (system_matrix (0, 0, 0) (1, 0, 0) (0, t, 0)))
              < eps * frobenius (system_matrix (0, 0, 0) (1, 0, 0) (0, t, 0))).
  { rewrite thin_det. rewrite Rabs_pos_eq by nra.
    pose proof (thin_frobenius t). nra. }
  specialize (H A). discriminate.
Qed.

(** X21: in exact arithmetic, [get_circle_params] returns [None] exactly
    when the determinant of its system matrix is zero. *)
Theorem degenerate_iff_exactly_singular
    (self : Circumcircle R) (a b c : Vector R) :
  node_positions self = Some (a, b, c) ->
  (get_circle_params self = (Returns None, self)
   <-> det (system_matrix a b c) = 0).
Proof.
  intros P. rewrite (get_circle_params_exact self P).
  rewrite det_system_matrix, np_dot_self_zero, <- exact_circle_none.
  split; [congruence | intros ->; reflexivity].
Qed.

Lemma degenerate_iff_exactly_singular_witness :
  (get_circle_params (scene (0, 0, 0) (1, 0, 0) (2, 0, 0)) =
     (Returns None, scene (0, 0, 0) (1, 0, 0) (2, 0, 0))
   <-> det (system_matrix (0, 0, 0) (1, 0, 0) (2, 0, 0)) = 0)
  /\ (get_circle_params (scene (1, 2, 3) (1, 3, 4) (2, 2, 3)) =
        (Returns None, scene (1, 2, 3) (1, 3, 4) (2, 2, 3))
      <-> det (system_matrix (1, 2, 3) (1, 3, 4) (2, 2, 3)) = 0).
Proof.
  split.
  - apply (degenerate_iff_exactly_singular
             (scene (0, 0, 0) (1, 0, 0) (2, 0, 0)) (0, 0, 0) (1, 0, 0) (2, 0, 0)).
    reflexivity.
  - apply (degenerate_iff_exactly_singular
             (scene (1, 2, 3) (1, 3, 4) (2, 2, 3)) (1, 2, 3) (1, 3, 4) (2, 2, 3)).
    reflexivity.
Defined.



(** X22: in exact arithmetic, the length of the cross product, by which
    the returned normal is divided, has no positive lower bound over the
    inputs on which a circle is returned. *)
Lemma divisor_arbitrarily_small :
  ~ exists eps : R,
      0 < eps /\
      forall (self self' : Circumcircle R) (a b c : Vector R) (circle : Circle R),
        node_positions self = Some (a, b, c) ->
        get_circle_params self = (Returns (Some circle), self') ->
        eps <= linalg_norm (np_cross (vsub b a) (vsub c a)).
Proof.
  intros (eps & Heps & H).
  destruct (small_positive eps Heps) as (T0 & T1 & T2).
  set (t := eps / (1 + eps)) in *.
  destruct (thin_returns_circle t) as [circle E]; [lra|].
  specialize (H (scene (0, 0, 0) (1, 0, 0) (0, t, 0)) _
                (0, 0, 0) (1, 0, 0) (0, t, 0) circle eq_refl E).
  rewrite thin_cross, thin_norm in H; lra.
Qed.

(** X23: in exact arithmetic, when [get_circle_params] returns a circle,
    the numbers it divided by, the three pivots of the linear solve and the
    length of the cross product, are all different from zero; the only
    other result is [None]. *)
Theorem divisors_nonzero_when_circle
    (self : Circumcircle R) (a b c : Vector R) :
  node_positions self = Some (a, b, c) ->
  get_circle_params self = (Returns None, self)
  \/ exists (circle : Circle R) (p1 p2 p3 : Row R),
       get_circle_params self = (Returns (Some circle), self)
       /\ getrf (system_matrix a b c) (system_rhs a b c) = Returns (p1, p2, p3)
       /\ col1 p1 <> 0 /\ col2 p2 <> 0 /\ col3 p3 <> 0
       /\ linalg_norm (np_cross (vsub b a) (vsub c a)) <> 0.
Proof.
  intros P. rewrite (get_circle_params_exact self P).
  destruct (exact_circle a b c) as [circle|] eqn:E; [right | left; reflexivity].
  destruct circle as [[center normal] radius].
  apply exact_circle_inv in E. destruct E as (N & _).
  pose proof (getrf_spec (system_matrix a b c) (system_rhs a b c)) as G.
  destruct (getrf _ _) as [[[p1 p2] p3] | e].
  - destruct G as (N1 & N2 & N3 & _).
    exists (center, normal, radius), p1, p2, p3.
    repeat split; auto. rewrite linalg_norm_zero. exact N.
  - destruct G as [_ D]. exfalso.
    rewrite det_system_matrix, np_dot_self_zero in D. contradiction.
Qed.

Lemma divisors_nonzero_when_circle_witness :
  get_circle_params (scene (0, 0, 0) (0, 1, 1) (1, 0, 0)) =
    (Returns None, scene (0, 0, 0) (0, 1, 1) (1, 0, 0))
  \/ exists (circle : Circle R) (p1 p2 p3 : Row R),
       get_circle_params (scene (0, 0, 0) (0, 1, 1) (1, 0, 0)) =
         (Returns (Some circle), scene (0, 0, 0) (0, 1, 1) (1, 0, 0))
       /\ getrf (system_matrix (0, 0, 0) (0, 1, 1) (1, 0, 0))
                (system_rhs (0, 0, 0) (0, 1, 1) (1, 0, 0)) = Returns (p1, p2, p3)
       /\ col1 p1 <> 0 /\ col2 p2 <> 0 /\ col3 p3 <> 0
       /\ linalg_norm
            (np_cross (vsub (0, 1, 1) (0, 0, 0)) (vsub (1, 0, 0) (0, 0, 0))) <> 0.
Proof.
  apply (divisors_nonzero_when_circle
           (scene (0, 0, 0) (0, 1, 1) (1, 0, 0)) (0, 0, 0) (0, 1, 1) (1, 0, 0)).
  reflexivity.
Defined.

Lemma np_isclose_zero (x : R) :
  np_isclose x 0 = true <-> Rabs x <= 1 / 100000000.
Proof.
  unfold np_isclose. scalar_R. rewrite Rleb_true, Rabs_R0, Rminus_0_r.
  split; intros; lra.
Qed.

Lemma np_isclose_zero_false (x : R) :
  np_isclose x 0 = false -> x <> 0.
Proof.
  intros H ->.
  assert (T : np_isclose 0 0 = true) by (apply np_isclose_zero; rewrite Rabs_R0; lra).
  congruence.
Qed.

Lemma np_cross_lagrange (u v : Vector R) :
  np_dot (np_cross u v) (np_cross u v) =
  np_dot u u * np_dot v v - np_dot u v * np_dot u v.
Proof. split_rows. unfold np_dot, np_cross. scalar_R. ring. Qed.

Lemma vdiv_one (u : Vector R) : vdiv u 1 = u.
Proof. split_rows. unfold vdiv. scalar_R. repeat f_equal; field. Qed.

Lemma axis_norm_1 : linalg_norm (1, 0, 0) = 1.
Proof. apply unit_np_dot. unfold np_dot. scalar_R. ring. Qed.

Lemma axis_norm_2 : linalg_norm (0, 1, 0) = 1.
Proof. apply unit_np_dot. unfold np_dot. scalar_R. ring. Qed.

Lemma axis_norm_3 : linalg_norm (0, 0, 1) = 1.
Proof. apply unit_np_dot. unfold np_dot. scalar_R. ring. Qed.

(** The vector [orth1] before and after it is divided by its length. *)
Lemma plane_basis_orth1 (n1 n2 n3 : R) :
  exists raw : Vector R,
    plane_basis (n1, n2, n3) =
      (vdiv raw (linalg_norm raw),
       np_cross (n1, n2, n3) (vdiv raw (linalg_norm raw)))
    /\ raw <> (0, 0, 0)
    /\ Rabs (np_dot raw (n1, n2, n3)) <= 1 / 100000000 * linalg_norm raw
    /\ ((np_isclose n1 0 = true -> n1 = 0) ->
        (np_isclose n2 0 = true -> n2 = 0) ->
        (np_isclose n3 0 = true -> n3 = 0) ->
        np_dot raw (n1, n2, n3) = 0).
Proof.
  unfold plane_basis. scalar_R.
  destruct (np_isclose n1 0) eqn:C1;
    [| destruct (np_isclose n2 0) eqn:C2;
       [| destruct (np_isclose n3 0) eqn:C3]].
  - exists (1, 0, 0). split; [reflexivity|]. rewrite axis_norm_1.
    apply np_isclose_zero in C1. unfold np_dot. scalar_R.
    replace (1 * n1 + 0 * n2 + 0 * n3) with n1 by ring.
    repeat split; [intros [= H]; lra | lra | intros H _ _; auto].
  - exists (0, 1, 0). split; [reflexivity|]. rewrite axis_norm_2.
    apply np_isclose_zero in C2. unfold np_dot. scalar_R.
    replace (0 * n1 + 1 * n2 + 0 * n3) with n2 by ring.
    repeat split; [intros [= H]; lra | lra | intros _ H _; auto].
  - exists (0, 0, 1). split; [reflexivity|]. rewrite axis_norm_3.
    apply np_isclose_zero in C3. unfold np_dot. scalar_R.
    replace (0 * n1 + 0 * n2 + 1 * n3) with n3 by ring.
    repeat split; [intros [= H]; lra | lra | intros _ _ H; auto].
  - exists (n2 * n3, - (2) * n1 * n3, n1 * n2). split; [reflexivity|].
    apply np_isclose_zero_false in C1, C2, C3.
    assert (Z : np_dot (n2 * n3, - (2) * n1 * n3, n1 * n2) (n1, n2, n3) = 0).
    { unfold np_dot. scalar_R. ring. }
    rewrite Z, Rabs_R0. repeat split.
    + intros [= H1 H2 H3]. apply Rmult_integral in H3. tauto.
    + pose proof (linalg_norm_nonneg (n2 * n3, - (2) * n1 * n3, n1 * n2)). nra.
Qed.
Lemma tilted_normal_unit : linalg_norm tilted_normal = 1.
Proof.
  apply unit_np_dot. unfold tilted_normal, np_dot. scalar_R. field.
Qed.

Lemma tilted_normal_basis :
  plane_basis tilted_normal = ((1, 0, 0), np_cross tilted_normal (1, 0, 0)).
Proof.
  unfold plane_basis, tilted_normal.
  assert (C : np_isclose (2000000000 / 1000000000000000001) 0 = true).
  { apply np_isclose_zero. rewrite Rabs_pos_eq; lra. }
  scalar_R. rewrite C, axis_norm_1, vdiv_one. reflexivity.
Qed.

(** The fallback at work in exact arithmetic: for the unit normal
    [tilted_normal], whose first component is within the tolerance of zero,
    the vector [orth1] is not orthogonal to the normal and [orth2] does not
    have length one. *)
Lemma plane_basis_not_orthonormal :
  linalg_norm tilted_normal = 1
  /\ let '(orth1, orth2) := plane_basis tilted_normal in
     np_dot orth1 tilted_normal <> 0 /\ linalg_norm orth2 <> 1.
Proof.
  split; [exact tilted_normal_unit|].
  rewrite tilted_normal_basis. split.
  - unfold tilted_normal, np_dot. scalar_R. lra.
  - rewrite unit_np_dot. unfold tilted_normal, np_cross, np_dot. scalar_R. lra.
Qed.

(** X24: in exact arithmetic, for a unit normal, [orth1] has length one,
    [orth2] is orthogonal to the normal and to [orth1], the product of
    [orth1] with the normal is at most the tolerance 1e-8 in magnitude, and
    the square of the length of [orth2] is one minus the square of that
    product; when every component of the normal that is within the tolerance
    of zero is zero, [orth1] is orthogonal to the normal and [orth2] has
    length one. *)
Theorem plane_basis_orthonormal_within_tolerance (normal : Vector R) :
  linalg_norm normal = 1 ->
  let '(n1, n2, n3) := normal in
  let '(orth1, orth2) := plane_basis normal in
  linalg_norm orth1 = 1
  /\ np_dot orth2 normal = 0
  /\ np_dot orth2 orth1 = 0
  /\ Rabs (np_dot orth1 normal) <= 1 / 100000000
  /\ np_dot orth2 orth2 = 1 - np_dot orth1 normal * np_dot orth1 normal
  /\ ((np_isclose n1 0 = true -> n1 = 0) ->
      (np_isclose n2 0 = true -> n2 = 0) ->
      (np_isclose n3 0 = true -> n3 = 0) ->
      np_dot orth1 normal = 0 /\ linalg_norm orth2 = 1).
Proof.
  destruct normal as [[n1 n2] n3]. intros U.
  destruct (plane_basis_orth1 n1 n2 n3) as (raw & -> & N & T & X).
  pose proof (linalg_norm_pos N) as P.
  pose proof (unit_vdiv_norm N) as U1.
  set (s := linalg_norm raw) in *.
  set (orth1 := vdiv raw s) in *.
  destruct (np_cross_orthogonal (n1, n2, n3) orth1) as [O1 O2].
  assert (L : np_dot (np_cross (n1, n2, n3) orth1) (np_cross (n1, n2, n3) orth1)
              = 1 - np_dot orth1 (n1, n2, n3) * np_dot orth1 (n1, n2, n3)).
  { rewrite np_cross_lagrange.
    apply unit_np_dot in U. apply unit_np_dot in U1. rewrite U, U1.
    rewrite (np_dot_comm (n1, n2, n3) orth1). ring. }
  assert (D : np_dot orth1 (n1, n2, n3) = np_dot raw (n1, n2, n3) / s).
  { unfold orth1. apply np_dot_vdiv. }
  repeat split; auto.
  - rewrite D. unfold Rdiv. rewrite Rabs_mult, (Rabs_pos_eq (/ s)).
    + apply (Rmult_le_reg_r s); [exact P|].
      rewrite Rmult_assoc, Rinv_l by lra. lra.
    + left. apply Rinv_0_lt_compat. exact P.
  - rewrite D, (X H H0 H1). unfold Rdiv. ring.
  - apply unit_np_dot. rewrite L, D, (X H H0 H1). unfold Rdiv. ring.
Qed.

Lemma plane_basis_orthonormal_within_tolerance_witness :
  let '(orth1, orth2) := plane_basis tilted_normal in
  linalg_norm orth1 = 1
  /\ np_dot orth2 tilted_normal = 0
  /\ np_dot orth2 orth1 = 0
  /\ Rabs (np_dot orth1 tilted_normal) <= 1 / 100000000
  /\ np_dot orth2 orth2 =
     1 - np_dot orth1 tilted_normal * np_dot orth1 tilted_normal
  /\ ((np_isclose (2000000000 / 1000000000000000001) 0 = true ->
       2000000000 / 1000000000000000001 = 0) ->
      (np_isclose (999999999999999999 / 1000000000000000001) 0 = true ->
       999999999999999999 / 1000000000000000001 = 0) ->
      (np_isclose 0 0 = true -> 0 = 0) ->
      np_dot orth1 tilted_normal = 0 /\ linalg_norm orth2 = 1).
Proof.
  apply (plane_basis_orthonormal_within_tolerance tilted_normal).
  exact tilted_normal_unit.
Defined.

Lemma app_one_neq {A : Type} (l : list A) (x : A) : l ++ [x] <> l.
Proof.
  intros H. apply (f_equal (@length A)) in H.
  rewrite length_app in H. cbn in H. lia.
Qed.

(** C7: [draw_line3d] makes a call of the line drawing exactly when both
    endpoints have a projection, and the call is the segment between the two
    projections; when an endpoint has none, the surface is left as it was. *)
Theorem draw_line3d_both_or_nothing
    {F : Type} {SF : Scalar F} (Camera : Type)
    (world_to_screen : Camera -> Vector F -> option (F * F))
    (screen : Surface F) (camera : Camera) (c : Color)
    (start end_ : Vector F) (width : Z) :
  let drawn := draw_line3d world_to_screen screen camera c start end_ width in
  ((exists call, drawn = screen ++ [call])
   <-> (exists s e, world_to_screen camera start = Some s
                    /\ world_to_screen camera end_ = Some e))
  /\ (forall s e,
        world_to_screen camera start = Some s ->
        world_to_screen camera end_ = Some e ->
        drawn = screen ++ [DrawLine c s e width])
  /\ (world_to_screen camera start = None \/ world_to_screen camera end_ = None ->
      drawn = screen).
Proof.
  unfold draw_line3d.
  destruct (world_to_screen camera start) as [s|];
    destruct (world_to_screen camera end_) as [e|]; cbn.
  - repeat split; eauto.
    + intros s' e' [= <-] [= <-]. reflexivity.
    + intros [H | H]; discriminate.
  - repeat split; try discriminate; auto.
    + intros [call H]. symmetry in H. apply app_one_neq in H. contradiction.
    + intros (s' & e' & _ & H). discriminate.
  - repeat split; try discriminate; auto.
    + intros [call H]. symmetry in H. apply app_one_neq in H. contradiction.
    + intros (s' & e' & H & _). discriminate.
  - repeat split; try discriminate; auto.
    + intros [call H]. symmetry in H. apply app_one_neq in H. contradiction.
    + intros (s' & e' & H & _). discriminate.
Qed.

Lemma get_circle_params_keeps_state
    {F : Type} {SF : Scalar F} (self : Circumcircle F) :
  snd (get_circle_params self) = self.
Proof.
  unfold get_circle_params, node_position, bind, try_except, call, ret, gets,
    raise.
  destruct self as [ns col]. cbn [nodes].
  destruct ns as [|na [|nb [|nc tl]]]; cbn [nth_error nodes]; try reflexivity.
  destruct (position na) as [[a1 a2] a3], (position nb) as [[b1 b2] b3],
    (position nc) as [[c1 c2] c3].
  destruct (linalg_solve _ _) as [center | []]; reflexivity.
Qed.

Lemma get_circle_params_reads_positions
    {F : Type} {SF : Scalar F} (self other : Circumcircle F) :
  node_positions self = node_positions other ->
  fst (get_circle_params self) = fst (get_circle_params other).
Proof.
  unfold node_positions, get_circle_params, node_position, bind, try_except,
    call, ret, gets, raise.
  destruct self as [ns col], other as [ns' col']. cbn [nodes].
  destruct ns as [|na [|nb [|nc tl]]]; destruct ns' as [|na' [|nb' [|nc' tl']]];
    cbn [nth_error nodes]; try discriminate; try reflexivity.
  intros [= Ea Eb Ec]. rewrite Ea, Eb, Ec.
  destruct (position na') as [[a1 a2] a3], (position nb') as [[b1 b2] b3],
    (position nc') as [[c1 c2] c3].
  destruct (linalg_solve _ _) as [center | []]; reflexivity.
Qed.

(** A method that assigns does change the object: after the input handler
    has moved a node, the solver reads the new position, and its result is
    the one for the new positions. *)
Lemma move_node_positions
    {F : Type} {SF : Scalar F} (self : Circumcircle F) (a b c p : Vector F) :
  node_positions self = Some (a, b, c) ->
  node_positions (snd (move_node 0 p self)) = Some (p, b, c)
  /\ node_positions (snd (move_node 1 p self)) = Some (a, p, c)
  /\ node_positions (snd (move_node 2 p self)) = Some (a, b, p).
Proof.
  unfold node_positions, move_node, modify. destruct self as [ns col].
  cbn [nodes snd].
  destruct ns as [|na [|nb [|nc tl]]]; try discriminate.
  intros [= <- <- <-]. repeat split; reflexivity.
Qed.

Lemma get_circle_params_after_move
    {F : Type} {SF : Scalar F} (self : Circumcircle F) (a b c p : Vector F) :
  node_positions self = Some (a, b, c) ->
  fst (get_circle_params (snd (move_node 2 p self))) =
  fst (get_circle_params (scene a b p)).
Proof.
  intros P. apply get_circle_params_reads_positions.
  destruct (move_node_positions self a b c p P) as (_ & _ & ->). reflexivity.
Qed.

(** C9: [get_circle_params] leaves the solver and its nodes as they were,
    and its result is determined by the positions of the first three nodes:
    on two solvers with these positions equal it returns equal results. *)
Theorem get_circle_params_pure
    {F : Type} {SF : Scalar F} (self other : Circumcircle F) :
  node_positions self = node_positions other ->
  snd (get_circle_params self) = self
  /\ fst (get_circle_params self) = fst (get_circle_params other).
Proof.
  intros P. split.
  - apply get_circle_params_keeps_state.
  - apply get_circle_params_reads_positions. exact P.
Qed.

Lemma get_circle_params_pure_witness :
  snd (get_circle_params (scene (0, 0, 0) (0, 1, 1) (1, 0, 0))) =
    scene (0, 0, 0) (0, 1, 1) (1, 0, 0)
  /\ fst (get_circle_params (scene (0, 0, 0) (0, 1, 1) (1, 0, 0))) =
     fst (get_circle_params
            (mkCircumcircle
               [mkNode (0, 0, 0) (Some RED); mkNode (0, 1, 1) None;
                mkNode (1, 0, 0) None; mkNode (5, 5, 5) None]
               BLACK)).
Proof.
  apply (get_circle_params_pure
           (scene (0, 0, 0) (0, 1, 1) (1, 0, 0))
           (mkCircumcircle
              [mkNode (0, 0, 0) (Some RED); mkNode (0, 1, 1) None;
               mkNode (1, 0, 0) None; mkNode (5, 5, 5) None]
              BLACK)).
  reflexivity.
Defined.

Lemma draw_line3d_extends
    {F : Type} {SF : Scalar F} (Camera : Type)
    (world_to_screen : Camera -> Vector F -> option (F * F))
    (screen : Surface F) (camera : Camera) (c : Color)
    (start end_ : Vector F) (width : Z) :
  exists calls,
    draw_line3d world_to_screen screen camera c start end_ width = screen ++ calls
    /\ (length calls <= 1)%nat.
Proof.
  unfold draw_line3d.
  destruct (world_to_screen camera start), (world_to_screen camera end_).
  - eexists. split; [reflexivity | cbn; lia].
  - exists []. rewrite app_nil_r. split; [reflexivity | cbn; lia].
  - exists []. rewrite app_nil_r. split; [reflexivity | cbn; lia].
  - exists []. rewrite app_nil_r. split; [reflexivity | cbn; lia].
Qed.

Lemma linspace_length {F : Type} {SF : Scalar F} (start stop : F) (num : nat) :
  length (linspace start stop num) = num.
Proof.
  destruct num as [|[|n]]; cbn [linspace]; try reflexivity.
  rewrite length_app, length_map, length_seq. cbn. lia.
Qed.

(** The circle is drawn as at most [n_points] segments, appended to what the
    surface already holds. *)
Lemma draw_circle3d_extends
    {F : Type} {SF : Scalar F} {TF : Trig F} (Camera : Type)
    (world_to_screen : Camera -> Vector F -> option (F * F))
    (screen : Surface F) (camera : Camera) (c : Color)
    (center normal : Vector F) (radius : F) (n_points : nat) (width : Z) :
  exists calls,
    draw_circle3d world_to_screen screen camera c center normal radius n_points
                  width = screen ++ calls
    /\ (length calls <= n_points)%nat.
Proof.
  unfold draw_circle3d. destruct (plane_basis normal) as [orth1 orth2].
  set (point := fun t => vadd center _).
  set (angles := linspace _ _ _).
  assert (L : (length (combine (map point (removelast angles))
                               (map point (tl angles))) <= n_points)%nat).
  { rewrite length_combine, !length_map.
    assert (length (tl angles) = n_points).
    { unfold angles. pose proof (linspace_length zero (two * pi)%sc (n_points + 1)) as E.
      destruct (linspace _ _ _); cbn in *; lia. }
    lia. }
  revert L. generalize (combine (map point (removelast angles)) (map point (tl angles))).
  clear angles. intros segs. revert screen n_points.
  induction segs as [|[s e] segs IH]; intros screen n L.
  - exists []. rewrite app_nil_r. split; [reflexivity | cbn; lia].
  - cbn [fold_left fst snd]. cbn [length] in L.
    destruct (draw_line3d_extends Camera world_to_screen screen camera c s e width)
      as (c1 & -> & L1).
    destruct (IH (screen ++ c1) (n - 1)%nat ltac:(lia)) as (c2 & -> & L2).
    exists (c1 ++ c2). rewrite app_assoc, length_app. split; [reflexivity | lia].
Qed.

End Claims.

(** ** Further properties of the solver *)

Section SolverFacts.

Local Open Scope R_scope.

(** X1: the solver raises exactly when it is short of nodes, and then it
    raises [IndexError]; whatever the arithmetic, the error of the linear
    solve never leaves the method. *)
Theorem get_circle_params_index_error
    {F : Type} {SF : Scalar F} (self : Circumcircle F) :
  ((length (nodes self) < 3)%nat ->
   get_circle_params self = (Raises IndexError, self))
  /\ ((3 <= length (nodes self))%nat ->
      exists r : option (Circle F), get_circle_params self = (Returns r, self)).
Proof.
  unfold get_circle_params, node_position, bind, try_except, call, ret, gets,
    raise.
  destruct self as [ns col]. cbn [nodes].
  destruct ns as [|na [|nb [|nc tl]]]; cbn [nth_error nodes length];
    (split; intros L; try lia; try reflexivity).
  destruct (position na) as [[a1 a2] a3], (position nb) as [[b1 b2] b3],
    (position nc) as [[c1 c2] c3].
  destruct (linalg_solve _ _) as [center | e] eqn:E.
  - eexists. reflexivity.
  - apply linalg_solve_raises in E. subst e. eexists. reflexivity.
Qed.

Lemma dist_sq (p q : Vector R) : dist p q * dist p q = np_dot (vsub p q) (vsub p q).
Proof.
  unfold dist, linalg_norm. scalar_R. apply sqrt_sqrt, np_dot_self_nonneg.
Qed.

Lemma dist_eq_inv (p q p' q' : Vector R) :
  dist p q = dist p' q' ->
  np_dot (vsub p q) (vsub p q) = np_dot (vsub p' q') (vsub p' q').
Proof. intros H. rewrite <- !dist_sq, H. reflexivity. Qed.

(** A point at equal distances from [a], [b] and [c] and in their plane
    solves the system of the solver. *)
Lemma equidistant_coplanar_solves (a b c x : Vector R) :
  dist x a = dist x b ->
  dist x b = dist x c ->
  np_dot (vsub x a) (np_cross (vsub b a) (vsub c a)) = 0 ->
  mat_vec (system_matrix a b c) x = system_rhs a b c.
Proof.
  intros H1 H2 H3. apply dist_eq_inv in H1, H2. revert H1 H2 H3.
  split_rows.
  unfold mat_vec, system_matrix, system_rhs, np_dot, np_sum, vsquare, vsub, np_cross.
  scalar_R. intros H1 H2 H3. f_equal; [f_equal|]; lra.
Qed.

Lemma solves_coplanar (a b c x : Vector R) :
  mat_vec (system_matrix a b c) x = system_rhs a b c ->
  np_dot (vsub x a) (np_cross (vsub b a) (vsub c a)) = 0.
Proof.
  split_rows.
  unfold mat_vec, system_matrix, system_rhs, np_dot, np_sum, vsquare, vsub, np_cross.
  scalar_R. intros H. injection H as H1 H2 H3. lra.
Qed.

(** X2: in exact arithmetic, the center returned is in the plane of the
    three points and at equal distances from the three, and it is the only
    point of that plane at equal distances from the three. *)
Theorem center_is_the_circumcenter
    (self self' : Circumcircle R) (a b c center normal : Vector R) (radius : R) :
  node_positions self = Some (a, b, c) ->
  get_circle_params self = (Returns (Some (center, normal, radius)), self') ->
  np_dot (vsub center a) normal = 0
  /\ dist center a = dist center b
  /\ dist center b = dist center c
  /\ forall x : Vector R,
       dist x a = dist x b ->
       dist x b = dist x c ->
       np_dot (vsub x a) normal = 0 ->
       x = center.
Proof.
  intros P H. apply (get_circle_params_some_inv _ _ _ _ _ _ _ _ P) in H.
  apply exact_circle_inv in H. destruct H as (N & -> & -> & _).
  destruct (exact_circle_some a b c N) as [_ S].
  pose proof (@linalg_norm_pos _ N) as L.
  assert (D : det (system_matrix a b c) <> 0).
  { rewrite det_system_matrix, np_dot_self_zero. exact N. }
  pose proof (center_equidistant _ S) as [Sab Sbc].
  split; [|split; [|split]].
  - rewrite np_dot_comm, np_dot_vdiv, np_dot_comm, (solves_coplanar _ _ _ _ S).
    unfold Rdiv. ring.
  - apply dist_eq. exact Sab.
  - apply dist_eq. exact Sbc.
  - intros x H1 H2 H3. apply cramer_unique; [exact D|].
    apply equidistant_coplanar_solves; auto.
    rewrite np_dot_comm, np_dot_vdiv in H3.
    apply (Rmult_eq_compat_r (linalg_norm (np_cross (vsub b a) (vsub c a)))) in H3.
    unfold Rdiv in H3. rewrite Rmult_assoc, Rinv_l, Rmult_1_r, Rmult_0_l in H3 by lra.
    rewrite np_dot_comm. exact H3.
Qed.



Lemma center_is_the_circumcenter_witness :
  np_dot (vsub (1 / 2, 1 / 2, 1 / 2) (0, 0, 0))
         (0 / sqrt 2, 1 / sqrt 2, -1 / sqrt 2) = 0
  /\ dist (1 / 2, 1 / 2, 1 / 2) (0, 0, 0) = dist (1 / 2, 1 / 2, 1 / 2) (0, 1, 1)
  /\ dist (1 / 2, 1 / 2, 1 / 2) (0, 1, 1) = dist (1 / 2, 1 / 2, 1 / 2) (1, 0, 0)
  /\ forall x : Vector R,
       dist x (0, 0, 0) = dist x (0, 1, 1) ->
       dist x (0, 1, 1) = dist x (1, 0, 0) ->
       np_dot (vsub x (0, 0, 0)) (0 / sqrt 2, 1 / sqrt 2, -1 / sqrt 2) = 0 ->
       x = (1 / 2, 1 / 2, 1 / 2).
Proof.
  apply (center_is_the_circumcenter
           (scene (0, 0, 0) (0, 1, 1) (1, 0, 0))
           (scene (0, 0, 0) (0, 1, 1) (1, 0, 0))
           (0, 0, 0) (0, 1, 1) (1, 0, 0)
           (1 / 2, 1 / 2, 1 / 2) (0 / sqrt 2, 1 / sqrt 2, -1 / sqrt 2)
           (sqrt (3 / 4))).
  - reflexivity.
  - exact scenario_run.
Defined.

(** X25: in exact arithmetic, the center returned solves the system of the
    specification: it is on the plane that bisects [a] and [b], on the plane
    that bisects [b] and [c] and in the plane of the three points, and the
    radius returned is its Euclidean distance from [a]. *)
Theorem center_solves_the_system
    (self self' : Circumcircle R) (a b c center normal : Vector R) (radius : R) :
  node_positions self = Some (a, b, c) ->
  get_circle_params self = (Returns (Some (center, normal, radius)), self') ->
  inner (from_to a b) center = 1 / 2 * (inner b b - inner a a)
  /\ inner (from_to b c) center = 1 / 2 * (inner c c - inner b b)
  /\ inner normal (from_to a center) = 0
  /\ radius = euclidean center a.
Proof.
  intros P H. apply (get_circle_params_some_inv _ _ _ _ _ _ _ _ P) in H.
  apply exact_circle_inv in H. destruct H as (N & -> & -> & ->).
  destruct (exact_circle_some a b c N) as [_ S].
  set (center := cramer _ _) in *.
  split; [|split; [|split]].
  - revert S. clearbody center. clear. split_rows.
    unfold mat_vec, system_matrix, system_rhs, np_dot, np_sum, vsquare, vsub,
      np_cross, inner, from_to.
    scalar_R. intros H. injection H as H1 H2 H3. lra.
  - revert S. clearbody center. clear. split_rows.
    unfold mat_vec, system_matrix, system_rhs, np_dot, np_sum, vsquare, vsub,
      np_cross, inner, from_to.
    scalar_R. intros H. injection H as H1 H2 H3. lra.
  - rewrite inner_np_dot, from_to_vsub, np_dot_vdiv, np_dot_comm,
      (solves_coplanar _ _ _ _ S).
    unfold Rdiv. ring.
  - apply dist_euclidean.
Qed.

Lemma center_solves_the_system_witness :
  inner (from_to (1, 2, 3) (1, 3, 4)) (3 / 2, 5 / 2, 7 / 2) =
    1 / 2 * (inner (1, 3, 4) (1, 3, 4) - inner (1, 2, 3) (1, 2, 3))
  /\ inner (from_to (1, 3, 4) (2, 2, 3)) (3 / 2, 5 / 2, 7 / 2) =
     1 / 2 * (inner (2, 2, 3) (2, 2, 3) - inner (1, 3, 4) (1, 3, 4))
  /\ inner (0 / sqrt 2, 1 / sqrt 2, -1 / sqrt 2)
           (from_to (1, 2, 3) (3 / 2, 5 / 2, 7 / 2)) = 0
  /\ sqrt (3 / 4) = euclidean (3 / 2, 5 / 2, 7 / 2) (1, 2, 3).
Proof.
  apply (center_solves_the_system
           (scene (1, 2, 3) (1, 3, 4) (2, 2, 3))
           (scene (1, 2, 3) (1, 3, 4) (2, 2, 3))
           (1, 2, 3) (1, 3, 4) (2, 2, 3)
           (3 / 2, 5 / 2, 7 / 2) (0 / sqrt 2, 1 / sqrt 2, -1 / sqrt 2)
           (sqrt (3 / 4))).
  - reflexivity.
  - exact shifted_run.
Defined.

(** The circle of three points, characterised: any point that solves the
    system is the center. *)
Lemma exact_circle_intro (a b c x : Vector R) :
  np_cross (vsub b a) (vsub c a) <> (0, 0, 0) ->
  mat_vec (system_matrix a b c) x = system_rhs a b c ->
  exact_circle a b c =
    Some (x,
          vdiv (np_cross (vsub b a) (vsub c a))
               (linalg_norm (np_cross (vsub b a) (vsub c a))),
          linalg_norm (vsub x a)).
Proof.
  intros N S. destruct (exact_circle_some a b c N) as [E _]. rewrite E.
  assert (D : det (system_matrix a b c) <> 0).
  { rewrite det_system_matrix, np_dot_self_zero. exact N. }
  rewrite <- (@cramer_unique _ _ x D S).
  reflexivity.
Qed.

Lemma vsub_vadd (p q v : Vector R) : vsub (vadd p v) (vadd q v) = vsub p q.
Proof. split_rows. unfold vsub, vadd. scalar_R. f_equal; [f_equal|]; ring. Qed.

Lemma exact_circle_translate (a b c v : Vector R) :
  exact_circle (vadd a v) (vadd b v) (vadd c v) =
  option_map (translate_circle v) (exact_circle a b c).
Proof.
  destruct (exact_circle a b c) as [[[center normal] radius]|] eqn:E; cbn.
  - apply exact_circle_inv in E. destruct E as (N & -> & -> & ->).
    destruct (exact_circle_some a b c N) as [_ S].
    set (center := cramer _ _) in *.
    rewrite (exact_circle_intro (vadd a v) (vadd b v) (vadd c v) (vadd center v)).
    + rewrite !vsub_vadd. reflexivity.
    + rewrite !vsub_vadd. exact N.
    + clearbody center. revert S. split_rows.
      unfold mat_vec, system_matrix, system_rhs, np_dot, np_sum, vsquare, vsub,
        vadd, np_cross.
      scalar_R. intros S. injection S as S1 S2 S3.
      f_equal; [f_equal|]; lra.
  - apply exact_circle_none. apply exact_circle_none in E.
    rewrite !vsub_vadd. exact E.
Qed.

(** X3: moving the three points by a vector [v] moves the center by [v]
    and leaves the normal and the radius as they are; a degenerate triple
    stays degenerate. *)
Theorem get_circle_params_translation
    (self other : Circumcircle R) (a b c v : Vector R)
    (r : option (Circle R)) :
  node_positions self = Some (a, b, c) ->
  node_positions other = Some (vadd a v, vadd b v, vadd c v) ->
  get_circle_params self = (Returns r, self) ->
  get_circle_params other = (Returns (option_map (translate_circle v) r), other).
Proof.
  intros P P' H.
  rewrite (get_circle_params_exact self P) in H.
  rewrite (get_circle_params_exact other P'), exact_circle_translate.
  congruence.
Qed.

Lemma get_circle_params_translation_witness :
  get_circle_params
    (scene (0 + 3, 0 + 4, 0 + 5) (0 + 3, 1 + 4, 1 + 5) (1 + 3, 0 + 4, 0 + 5)) =
  (Returns (Some ((1 / 2 + 3, 1 / 2 + 4, 1 / 2 + 5),
                  (0 / sqrt 2, 1 / sqrt 2, -1 / sqrt 2),
                  sqrt (3 / 4))),
   scene (0 + 3, 0 + 4, 0 + 5) (0 + 3, 1 + 4, 1 + 5) (1 + 3, 0 + 4, 0 + 5)).
Proof.
  apply (get_circle_params_translation
           (scene (0, 0, 0) (0, 1, 1) (1, 0, 0))
           (scene (0 + 3, 0 + 4, 0 + 5) (0 + 3, 1 + 4, 1 + 5) (1 + 3, 0 + 4, 0 + 5))
           (0, 0, 0) (0, 1, 1) (1, 0, 0) (3, 4, 5)
           (Some ((1 / 2, 1 / 2, 1 / 2),
                  (0 / sqrt 2, 1 / sqrt 2, -1 / sqrt 2),
                  sqrt (3 / 4)))).
  - reflexivity.
  - reflexivity.
  - exact scenario_run.
Defined.


Lemma np_cross_swap12 (a b c : Vector R) :
  np_cross (vsub a b) (vsub c b) = vscale (-1) (np_cross (vsub b a) (vsub c a)).
Proof.
  split_rows. unfold np_cross, vsub, vscale. scalar_R. f_equal; [f_equal|]; ring.
Qed.

Lemma np_cross_swap23 (a b c : Vector R) :
  np_cross (vsub c a) (vsub b a) = vscale (-1) (np_cross (vsub b a) (vsub c a)).
Proof.
  split_rows. unfold np_cross, vsub, vscale. scalar_R. f_equal; [f_equal|]; ring.
Qed.

Lemma vscale_nonzero (k : R) (u : Vector R) :
  k <> 0 -> u <> (0, 0, 0) -> vscale k u <> (0, 0, 0).
Proof.
  destruct u as [[u1 u2] u3]. unfold vscale. scalar_R.
  intros K N [= H1 H2 H3]. apply N.
  apply Rmult_integral in H1, H2, H3.
  f_equal; [f_equal|]; tauto.
Qed.

Lemma linalg_norm_vscale (k : R) (u : Vector R) :
  linalg_norm (vscale k u) = Rabs k * linalg_norm u.
Proof.
  destruct u as [[u1 u2] u3]. unfold linalg_norm, vscale, np_dot. scalar_R.
  replace (k * u1 * (k * u1) + k * u2 * (k * u2) + k * u3 * (k * u3))
    with (k * k * (u1 * u1 + u2 * u2 + u3 * u3)) by ring.
  rewrite sqrt_mult; [| nra | nra].
  f_equal. apply sqrt_Rsqr_abs.
Qed.

Lemma vdiv_vscale (k s : R) (u : Vector R) :
  vdiv (vscale k u) s = vscale k (vdiv u s).
Proof.
  destruct u as [[u1 u2] u3]. unfold vdiv, vscale. scalar_R.
  unfold Rdiv. f_equal; [f_equal|]; ring.
Qed.

Lemma flipped_normal (n : Vector R) :
  vdiv (vscale (-1) n) (linalg_norm (vscale (-1) n)) =
  vscale (-1) (vdiv n (linalg_norm n)).
Proof.
  assert (A : Rabs (-1) = 1) by (unfold Rabs; destruct (Rcase_abs (-1)); lra).
  rewrite linalg_norm_vscale, A, Rmult_1_l.
  apply vdiv_vscale.
Qed.

Lemma exact_circle_swap12 (a b c : Vector R) :
  exact_circle b a c = option_map flip_circle (exact_circle a b c).
Proof.
  destruct (exact_circle a b c) as [[[center normal] radius]|] eqn:E; cbn.
  - apply exact_circle_inv in E. destruct E as (N & -> & -> & ->).
    destruct (exact_circle_some a b c N) as [_ S].
    set (center := cramer _ _) in *.
    destruct (@center_equidistant _ _ _ _ S) as [Eab _].
    rewrite (exact_circle_intro b a c center).
    + rewrite np_cross_swap12, flipped_normal.
      assert (Rb : linalg_norm (vsub center b) = linalg_norm (vsub center a)).
      { unfold linalg_norm. rewrite Eab. reflexivity. }
      rewrite Rb. reflexivity.
    + rewrite np_cross_swap12. apply vscale_nonzero; [lra | exact N].
    + clearbody center. clear Eab. revert S. split_rows.
      unfold mat_vec, system_matrix, system_rhs, np_dot, np_sum, vsquare, vsub,
        np_cross.
      scalar_R. intros S. injection S as S1 S2 S3.
      f_equal; [f_equal|]; lra.
  - apply exact_circle_none. apply exact_circle_none in E.
    rewrite np_cross_swap12, E. unfold vscale. scalar_R.
    f_equal; [f_equal|]; ring.
Qed.

Lemma exact_circle_swap23 (a b c : Vector R) :
  exact_circle a c b = option_map flip_circle (exact_circle a b c).
Proof.
  destruct (exact_circle a b c) as [[[center normal] radius]|] eqn:E; cbn.
  - apply exact_circle_inv in E. destruct E as (N & -> & -> & ->).
    destruct (exact_circle_some a b c N) as [_ S].
    set (center := cramer _ _) in *.
    rewrite (exact_circle_intro a c b center).
    + rewrite np_cross_swap23, flipped_normal. reflexivity.
    + rewrite np_cross_swap23. apply vscale_nonzero; [lra | exact N].
    + clearbody center. revert S. split_rows.
      unfold mat_vec, system_matrix, system_rhs, np_dot, np_sum, vsquare, vsub,
        np_cross.
      scalar_R. intros S. injection S as S1 S2 S3.
      f_equal; [f_equal|]; lra.
  - apply exact_circle_none. apply exact_circle_none in E.
    rewrite np_cross_swap23, E. unfold vscale. scalar_R.
    f_equal; [f_equal|]; ring.
Qed.

(** X4: the order of the nodes matters only for the direction of the
    normal: with the first two nodes exchanged, or the last two, the solver
    returns the same center and radius and the opposite normal, and a
    degenerate triple stays degenerate. *)
Theorem get_circle_params_swap
    (self swapped12 swapped23 : Circumcircle R) (a b c : Vector R)
    (r : option (Circle R)) :
  node_positions self = Some (a, b, c) ->
  node_positions swapped12 = Some (b, a, c) ->
  node_positions swapped23 = Some (a, c, b) ->
  get_circle_params self = (Returns r, self) ->
  get_circle_params swapped12 = (Returns (option_map flip_circle r), swapped12)
  /\ get_circle_params swapped23 = (Returns (option_map flip_circle r), swapped23).
Proof.
  intros P P12 P23 H.
  rewrite (get_circle_params_exact self P) in H.
  rewrite (get_circle_params_exact swapped12 P12), (exact_circle_swap12 a b c).
  rewrite (get_circle_params_exact swapped23 P23), (exact_circle_swap23 a b c).
  injection H as <-. split; reflexivity.
Qed.

Lemma get_circle_params_swap_witness :
  get_circle_params (scene (0, 1, 1) (0, 0, 0) (1, 0, 0)) =
    (Returns (Some ((1 / 2, 1 / 2, 1 / 2),
                    vscale (-1) (0 / sqrt 2, 1 / sqrt 2, -1 / sqrt 2),
                    sqrt (3 / 4))),
     scene (0, 1, 1) (0, 0, 0) (1, 0, 0))
  /\ get_circle_params (scene (0, 0, 0) (1, 0, 0) (0, 1, 1)) =
    (Returns (Some ((1 / 2, 1 / 2, 1 / 2),
                    vscale (-1) (0 / sqrt 2, 1 / sqrt 2, -1 / sqrt 2),
                    sqrt (3 / 4))),
     scene (0, 0, 0) (1, 0, 0) (0, 1, 1)).
Proof.
  apply (get_circle_params_swap
           (scene (0, 0, 0) (0, 1, 1) (1, 0, 0))
           (scene (0, 1, 1) (0, 0, 0) (1, 0, 0))
           (scene (0, 0, 0) (1, 0, 0) (0, 1, 1))
           (0, 0, 0) (0, 1, 1) (1, 0, 0)
           (Some ((1 / 2, 1 / 2, 1 / 2),
                  (0 / sqrt 2, 1 / sqrt 2, -1 / sqrt 2),
                  sqrt (3 / 4)))).
  - reflexivity.
  - reflexivity.
  - reflexivity.
  - exact scenario_run.
Defined.


Lemma np_cross_scaled (k : R) (a b c : Vector R) :
  np_cross (vsub (vscale k b) (vscale k a)) (vsub (vscale k c) (vscale k a)) =
  vscale (k * k) (np_cross (vsub b a) (vsub c a)).
Proof.
  split_rows. unfold np_cross, vsub, vscale. scalar_R. f_equal; [f_equal|]; ring.
Qed.

Lemma scaled_normal (k : R) (n : Vector R) :
  k <> 0 -> n <> (0, 0, 0) ->
  vdiv (vscale (k * k) n) (linalg_norm (vscale (k * k) n)) =
  vdiv n (linalg_norm n).
Proof.
  intros K N. pose proof (@linalg_norm_pos _ N) as P.
  rewrite linalg_norm_vscale, Rabs_pos_eq by nra.
  set (s := linalg_norm n) in *. clearbody s.
  destruct n as [[n1 n2] n3]. unfold vdiv, vscale. scalar_R.
  f_equal; [f_equal|]; field; lra.
Qed.

Lemma vsub_vscale (k : R) (p q : Vector R) :
  vsub (vscale k p) (vscale k q) = vscale k (vsub p q).
Proof.
  split_rows. unfold vsub, vscale. scalar_R. f_equal; [f_equal|]; ring.
Qed.

Lemma exact_circle_scale (k : R) (a b c : Vector R) :
  k <> 0 ->
  exact_circle (vscale k a) (vscale k b) (vscale k c) =
  option_map (scale_circle k) (exact_circle a b c).
Proof.
  intros K.
  destruct (exact_circle a b c) as [[[center normal] radius]|] eqn:E; cbn.
  - apply exact_circle_inv in E. destruct E as (N & -> & -> & ->).
    destruct (exact_circle_some a b c N) as [_ S].
    set (center := cramer _ _) in *.
    rewrite (exact_circle_intro (vscale k a) (vscale k b) (vscale k c)
               (vscale k center)).
    + rewrite np_cross_scaled, (scaled_normal k _ K N).
      rewrite vsub_vscale, linalg_norm_vscale. reflexivity.
    + rewrite np_cross_scaled. apply vscale_nonzero; [nra | exact N].
    + clearbody center. revert S. split_rows.
      unfold mat_vec, system_matrix, system_rhs, np_dot, np_sum, vsquare, vsub,
        vscale, np_cross.
      scalar_R. intros S. injection S as S1 S2 S3.
      apply (f_equal (Rmult (k * k))) in S1, S2.
      apply (f_equal (Rmult (k * k * k))) in S3.
      f_equal; [f_equal|]; lra.
  - apply exact_circle_none. apply exact_circle_none in E.
    rewrite np_cross_scaled, E. unfold vscale. scalar_R.
    f_equal; [f_equal|]; ring.
Qed.

(** X5: scaling the three points by a factor [k] other than zero, from the
    origin, scales the center by [k] and the radius by [|k|] and leaves the
    normal as it is; a degenerate triple stays degenerate. *)
Theorem get_circle_params_scaling
    (self other : Circumcircle R) (k : R) (a b c : Vector R)
    (r : option (Circle R)) :
  k <> 0 ->
  node_positions self = Some (a, b, c) ->
  node_positions other = Some (vscale k a, vscale k b, vscale k c) ->
  get_circle_params self = (Returns r, self) ->
  get_circle_params other = (Returns (option_map (scale_circle k) r), other).
Proof.
  intros K P P' H.
  rewrite (get_circle_params_exact self P) in H.
  rewrite (get_circle_params_exact other P'), (exact_circle_scale k a b c K).
  injection H as <-. reflexivity.
Qed.

Lemma get_circle_params_scaling_witness :
  get_circle_params
    (scene (-2 * 0, -2 * 0, -2 * 0) (-2 * 0, -2 * 1, -2 * 1)
           (-2 * 1, -2 * 0, -2 * 0)) =
  (Returns (Some ((-2 * (1 / 2), -2 * (1 / 2), -2 * (1 / 2)),
                  (0 / sqrt 2, 1 / sqrt 2, -1 / sqrt 2),
                  Rabs (-2) * sqrt (3 / 4))),
   scene (-2 * 0, -2 * 0, -2 * 0) (-2 * 0, -2 * 1, -2 * 1)
         (-2 * 1, -2 * 0, -2 * 0)).
Proof.
  apply (get_circle_params_scaling
           (scene (0, 0, 0) (0, 1, 1) (1, 0, 0))
           (scene (-2 * 0, -2 * 0, -2 * 0) (-2 * 0, -2 * 1, -2 * 1)
                  (-2 * 1, -2 * 0, -2 * 0))
           (-2) (0, 0, 0) (0, 1, 1) (1, 0, 0)
           (Some ((1 / 2, 1 / 2, 1 / 2),
                  (0 / sqrt 2, 1 / sqrt 2, -1 / sqrt 2),
                  sqrt (3 / 4)))).
  - lra.
  - reflexivity.
  - reflexivity.
  - exact scenario_run.
Defined.

End SolverFacts.

(** ** The circle as it is drawn *)

Section CircleDrawing.

Local Open Scope R_scope.

Lemma draw_segments_count
    {F : Type} {SF : Scalar F} (Camera : Type)
    (world_to_screen : Camera -> Vector F -> option (F * F))
    (camera : Camera) (c : Color) (width : Z)
    (segs : list (Vector F * Vector F)) (screen : Surface F) :
  exists calls,
    fold_left
      (fun scr se => draw_line3d world_to_screen scr camera c (fst se) (snd se) width)
      segs screen = screen ++ calls
    /\ (length calls <= length segs)%nat
    /\ ((forall p, world_to_screen camera p <> None) ->
        length calls = length segs)
    /\ ((forall p, world_to_screen camera p = None) -> calls = []).
Proof.
  revert screen. induction segs as [|[s e] segs IH]; intros screen.
  - exists []. rewrite app_nil_r. repeat split; auto.
  - cbn [fold_left fst snd length].
    destruct (IH (draw_line3d world_to_screen screen camera c s e width))
      as (calls & E & L & A & N).
    rewrite E. unfold draw_line3d.
    destruct (world_to_screen camera s) as [s2|] eqn:Es;
      [destruct (world_to_screen camera e) as [e2|] eqn:Ee|].
    + exists (DrawLine c s2 e2 width :: calls). rewrite <- app_assoc.
      repeat split; cbn; auto; try lia.
      intros H. rewrite H in Es. discriminate.
    + exists calls. repeat split; auto.
      intros H. destruct (H e Ee).
    + exists calls. repeat split; auto.
      intros H. destruct (H s Es).
Qed.

Lemma circle_segments_length
    {F : Type} {SF : Scalar F} {A : Type} (point : F -> A)
    (start stop : F) (n : nat) :
  length (combine (map point (removelast (linspace start stop (n + 1))))
                  (map point (tl (linspace start stop (n + 1))))) = n.
Proof.
  pose proof (linspace_length start stop (n + 1)) as E.
  rewrite length_combine, !length_map.
  destruct (linspace start stop (n + 1)) as [|x l] eqn:El; [cbn in E; lia|].
  assert (R : length (removelast (x :: l)) = n).
  { destruct (@exists_last _ (x :: l) ltac:(discriminate)) as (l' & y & El').
    rewrite El' in *. rewrite removelast_last. rewrite length_app in E.
    cbn in E. lia. }
  cbn [tl]. cbn [length] in E. rewrite R. lia.
Qed.

(** X6: [draw_circle3d] adds its segments to what the screen holds; it adds
    at most [n_points], exactly [n_points] when the camera projects every
    point, and none when it projects no point (or when [n_points] is 0). *)
Theorem draw_circle3d_segment_count
    {F : Type} {SF : Scalar F} {TF : Trig F} (Camera : Type)
    (world_to_screen : Camera -> Vector F -> option (F * F))
    (screen : Surface F) (camera : Camera) (c : Color)
    (center normal : Vector F) (radius : F) (n_points : nat) (width : Z) :
  exists calls,
    draw_circle3d world_to_screen screen camera c center normal radius n_points
                  width = screen ++ calls
    /\ (length calls <= n_points)%nat
    /\ ((forall p, world_to_screen camera p <> None) -> length calls = n_points)
    /\ ((forall p, world_to_screen camera p = None) -> calls = []).
Proof.
  unfold draw_circle3d. destruct (plane_basis normal) as [orth1 orth2].
  set (point := fun t => vadd center _).
  pose proof (circle_segments_length point zero (two * pi)%sc n_points) as L.
  destruct (draw_segments_count Camera world_to_screen camera c width
              (combine (map point (removelast (linspace zero (two * pi)%sc (n_points + 1))))
                       (map point (tl (linspace zero (two * pi)%sc (n_points + 1)))))
              screen) as (calls & E & B & A & N).
  rewrite L in B, A. exists calls. auto.
Qed.


Lemma circle_angle_0 (n : nat) : circle_angle n 0 = 0.
Proof. unfold circle_angle. cbn [INR]. ring. Qed.

Lemma circle_angle_full (n : nat) : (1 <= n)%nat -> circle_angle n n = 2 * PI.
Proof.
  intros H. unfold circle_angle. field. apply not_0_INR. lia.
Qed.

(** The angles of [np.linspace(0, 2 * np.pi, n_points + 1)]. *)
Lemma linspace_circle_angles (n : nat) :
  linspace (F := R) zero (two * pi)%sc (n + 1) = map (circle_angle n) (seq 0 (n + 1)).
Proof.
  replace (n + 1)%nat with (S n) by lia.
  destruct n as [|n].
  - cbn. rewrite circle_angle_0. reflexivity.
  - rewrite seq_S, map_app. cbn [linspace map Nat.add]. scalar_R.
    cbn [pi R_trig].
    rewrite circle_angle_full by lia. f_equal.
    apply map_ext. intros i. unfold circle_angle. unfold Rdiv. ring.
Qed.

Lemma removelast_map_seq {A : Type} (f : nat -> A) (n : nat) :
  removelast (map f (seq 0 (n + 1))) = map f (seq 0 n).
Proof.
  replace (n + 1)%nat with (S n) by lia.
  rewrite seq_S, map_app. cbn [map]. apply removelast_last.
Qed.

Lemma tl_map_seq {A : Type} (f : nat -> A) (n : nat) :
  tl (map f (seq 0 (n + 1))) = map (fun i => f (S i)) (seq 0 n).
Proof.
  replace (n + 1)%nat with (S n) by lia.
  cbn [seq map tl]. rewrite <- seq_shift, map_map. reflexivity.
Qed.

Lemma combine_map_same {A B C : Type} (f : A -> B) (g : A -> C) (l : list A) :
  combine (map f l) (map g l) = map (fun x => (f x, g x)) l.
Proof. induction l as [|x l IH]; cbn; [reflexivity | rewrite IH; reflexivity]. Qed.

Lemma draw_segments_all
    (Camera : Type) (world_to_screen : Camera -> Vector R -> option (R * R))
    (proj : Vector R -> R * R) (camera : Camera) (c : Color) (width : Z)
    (segs : list (Vector R * Vector R)) (screen : Surface R) :
  (forall p, world_to_screen camera p = Some (proj p)) ->
  fold_left
    (fun scr se => draw_line3d world_to_screen scr camera c (fst se) (snd se) width)
    segs screen =
  screen ++ map (fun se => DrawLine c (proj (fst se)) (proj (snd se)) width) segs.
Proof.
  intros H. revert screen. induction segs as [|[s e] segs IH]; intros screen.
  - cbn. rewrite app_nil_r. reflexivity.
  - cbn [fold_left map fst snd]. rewrite IH. unfold draw_line3d.
    rewrite !H. rewrite <- app_assoc. reflexivity.
Qed.

(** X7: when the camera projects every point, [draw_circle3d] draws the
    closed polygon with [n_points] equal steps of angle: segment [i] goes
    from the image of the point at angle [2 pi i / n_points] to the image of
    the next one, and the last point is the first one again. *)
Theorem draw_circle3d_regular_polygon
    (Camera : Type) (world_to_screen : Camera -> Vector R -> option (R * R))
    (proj : Vector R -> R * R)
    (screen : Surface R) (camera : Camera) (c : Color)
    (center normal : Vector R) (radius : R) (n_points : nat) (width : Z) :
  (forall p, world_to_screen camera p = Some (proj p)) ->
  draw_circle3d world_to_screen screen camera c center normal radius n_points
                width =
    screen ++
    map (fun i =>
           DrawLine c
             (proj (circle_point center normal radius (circle_angle n_points i)))
             (proj (circle_point center normal radius
                                 (circle_angle n_points (S i))))
             width)
        (seq 0 n_points)
  /\ circle_point center normal radius (circle_angle n_points n_points) =
     circle_point center normal radius (circle_angle n_points 0).
Proof.
  intros H. split.
  - unfold draw_circle3d, circle_point.
    destruct (plane_basis normal) as [orth1 orth2].
    rewrite linspace_circle_angles, removelast_map_seq, tl_map_seq.
    rewrite !map_map, combine_map_same.
    rewrite (draw_segments_all Camera world_to_screen proj camera c width _ _ H).
    rewrite map_map. reflexivity.
  - destruct n_points as [|n]; [reflexivity|].
    rewrite circle_angle_full, circle_angle_0 by lia.
    unfold circle_point. destruct (plane_basis normal) as [orth1 orth2].
    rewrite cos_2PI, sin_2PI, cos_0, sin_0. reflexivity.
Qed.


Lemma flat_camera_total (camera : unit) (p : Vector R) :
  flat_camera camera p = Some (flat_proj p).
Proof. destruct p as [[p1 p2] p3]. reflexivity. Qed.

Lemma draw_circle3d_regular_polygon_witness :
  draw_circle3d flat_camera [] tt RED (0, 0, 0) (0, 0, 1) 1 4 1 =
    [] ++
    map (fun i =>
           DrawLine RED
             (flat_proj (circle_point (0, 0, 0) (0, 0, 1) 1 (circle_angle 4 i)))
             (flat_proj (circle_point (0, 0, 0) (0, 0, 1) 1 (circle_angle 4 (S i))))
             1)
        (seq 0 4)
  /\ circle_point (0, 0, 0) (0, 0, 1) 1 (circle_angle 4 4) =
     circle_point (0, 0, 0) (0, 0, 1) 1 (circle_angle 4 0).
Proof.
  apply (draw_circle3d_regular_polygon
           unit flat_camera flat_proj [] tt RED (0, 0, 0) (0, 0, 1) 1 4 1).
  exact (flat_camera_total tt).
Defined.

(** The basis of the plane when it is exact: for a unit normal whose
    components within the tolerance of zero are zero. *)
Lemma plane_basis_exact (n1 n2 n3 : R) :
  linalg_norm (n1, n2, n3) = 1 ->
  (np_isclose n1 0 = true -> n1 = 0) ->
  (np_isclose n2 0 = true -> n2 = 0) ->
  (np_isclose n3 0 = true -> n3 = 0) ->
  let '(orth1, orth2) := plane_basis (n1, n2, n3) in
  np_dot orth1 orth1 = 1 /\ np_dot orth2 orth2 = 1 /\ np_dot orth1 orth2 = 0
  /\ np_dot orth1 (n1, n2, n3) = 0 /\ np_dot orth2 (n1, n2, n3) = 0.
Proof.
  intros U X1 X2 X3.
  destruct (plane_basis_orth1 n1 n2 n3) as (raw & -> & N & _ & X).
  pose proof (unit_vdiv_norm N) as U1.
  specialize (X X1 X2 X3).
  set (orth1 := vdiv raw (linalg_norm raw)) in *.
  destruct (np_cross_orthogonal (n1, n2, n3) orth1) as [O1 O2].
  assert (D : np_dot orth1 (n1, n2, n3) = 0).
  { unfold orth1. rewrite np_dot_vdiv, X. unfold Rdiv. ring. }
  apply unit_np_dot in U, U1.
  repeat split; auto.
  - rewrite np_cross_lagrange, U, U1, (np_dot_comm (n1, n2, n3) orth1), D. ring.
  - rewrite np_dot_comm. exact O2.
Qed.

Lemma np_dot_circle_offset (o1 o2 v : Vector R) (r ct st : R) :
  np_dot (vscale r (vadd (vscale ct o1) (vscale st o2))) v =
  r * (ct * np_dot o1 v + st * np_dot o2 v).
Proof. split_rows. unfold np_dot, vscale, vadd. scalar_R. ring. Qed.

Lemma np_dot_circle_offset_self (o1 o2 : Vector R) (r ct st : R) :
  np_dot (vscale r (vadd (vscale ct o1) (vscale st o2)))
         (vscale r (vadd (vscale ct o1) (vscale st o2))) =
  r * r * (ct * ct * np_dot o1 o1 + 2 * (ct * st) * np_dot o1 o2
           + st * st * np_dot o2 o2).
Proof. split_rows. unfold np_dot, vscale, vadd. scalar_R. ring. Qed.

Lemma vsub_vadd_l (p q : Vector R) : vsub (vadd p q) p = q.
Proof. split_rows. unfold vsub, vadd. scalar_R. f_equal; [f_equal|]; ring. Qed.

(** X8: for a unit normal whose components within the tolerance of zero
    are zero, every point of the polygon is on the circle: at the distance
    [|radius|] from the center, in the plane through the center with the
    given normal. *)
Theorem circle_point_on_circle (center normal : Vector R) (radius t : R) :
  linalg_norm normal = 1 ->
  (let '(n1, n2, n3) := normal in
   (np_isclose n1 0 = true -> n1 = 0)
   /\ (np_isclose n2 0 = true -> n2 = 0)
   /\ (np_isclose n3 0 = true -> n3 = 0)) ->
  dist (circle_point center normal radius t) center = Rabs radius
  /\ np_dot (vsub (circle_point center normal radius t) center) normal = 0.
Proof.
  destruct normal as [[n1 n2] n3]. intros U (X1 & X2 & X3).
  pose proof (plane_basis_exact n1 n2 n3 U X1 X2 X3) as B.
  unfold circle_point, dist.
  destruct (plane_basis (n1, n2, n3)) as [orth1 orth2].
  destruct B as (B1 & B2 & B12 & B1n & B2n).
  rewrite vsub_vadd_l. split.
  - unfold linalg_norm. scalar_R.
    rewrite np_dot_circle_offset_self, B1, B2, B12.
    replace (radius * radius * (cos t * cos t * 1 + 2 * (cos t * sin t) * 0
                                + sin t * sin t * 1))
      with (radius * radius * (Rsqr (sin t) + Rsqr (cos t)))
      by (unfold Rsqr; ring).
    rewrite sin2_cos2, Rmult_1_r. apply sqrt_Rsqr_abs.
  - rewrite np_dot_circle_offset, B1n, B2n. ring.
Qed.

Lemma circle_point_on_circle_witness :
  dist (circle_point (1, 2, 3) (0, 0, 1) 5 (PI / 3)) (1, 2, 3) = Rabs 5
  /\ np_dot (vsub (circle_point (1, 2, 3) (0, 0, 1) 5 (PI / 3)) (1, 2, 3))
            (0, 0, 1) = 0.
Proof.
  apply (circle_point_on_circle (1, 2, 3) (0, 0, 1) 5 (PI / 3)).
  - exact axis_norm_3.
  - repeat split; intros H; try reflexivity.
    apply np_isclose_zero in H. rewrite Rabs_R1 in H. lra.
Defined.

End CircleDrawing.
(** ** The coordinate axes, the circle with its nodes, and the frames *)

Section AxesDrawing.

Context {F : Type} {SF : Scalar F} {PF : Pixels F}.
Variable Camera : Type.
Variable world_to_screen : Camera -> Vector F -> option (F * F).

Lemma draw_line3d_prefix (screen : Surface F) (camera : Camera) (c : Color)
    (start end_ : Vector F) (width : Z) :
  draw_line3d world_to_screen screen camera c start end_ width =
  screen ++ draw_line3d world_to_screen [] camera c start end_ width.
Proof.
  unfold draw_line3d.
  destruct (world_to_screen camera start), (world_to_screen camera end_);
    cbn; rewrite ?app_nil_r; reflexivity.
Qed.

Lemma CoordinateAxes_draw_calls (self : CoordinateAxes)
    (screen : Screen F Camera) (camera : Camera) :
  CoordinateAxes_draw world_to_screen self screen camera =
  screen ++ concat (map (axis_calls world_to_screen self camera) labelled_axes).
Proof.
  unfold CoordinateAxes_draw. fold (@labelled_axes F SF).
  generalize (@labelled_axes F SF). intros axes. revert screen.
  induction axes as [|[e l] axes IH]; intros screen.
  - cbn. rewrite app_nil_r. reflexivity.
  - cbn [fold_left map concat]. rewrite IH. unfold axis_calls, on_screen.
    destruct (world_to_screen camera (vtimes e eleven_tenths)) as [[px py]|];
      rewrite <- ?app_assoc; cbn [app]; rewrite ?app_nil_r; reflexivity.
Qed.

(** X9: [CoordinateAxes.draw] adds only lines and labels to the screen.  It
    draws the line of an axis when the origin and the endpoint both have a
    projection, and the label of an axis when the point at 1.1 along it
    has one, whether or not the line is drawn: with the origin out of view
    no line is drawn, and labels still are. *)
Theorem CoordinateAxes_draw_counts (self : CoordinateAxes)
    (screen : Screen F Camera) (camera : Camera) :
  exists calls,
    CoordinateAxes_draw world_to_screen self screen camera = screen ++ calls
    /\ forallb (fun call => is_line call || is_label call) calls = true
    /\ length (filter (@is_line F Camera) calls) =
       (if visible world_to_screen camera (of_nat 0, of_nat 0, of_nat 0)
        then length (filter (visible world_to_screen camera) (map fst labelled_axes))
        else 0%nat)
    /\ length (filter (@is_label F Camera) calls) =
       length (filter (fun e => visible world_to_screen camera (vtimes e eleven_tenths))
                      (map fst labelled_axes)).
Proof.
  eexists. split; [apply CoordinateAxes_draw_calls|].
  unfold labelled_axes, axis_calls, draw_line3d, visible.
  cbn [combine map concat fst filter].
  destruct (world_to_screen camera (of_nat 0, of_nat 0, of_nat 0));
    destruct (world_to_screen camera (of_nat 1, of_nat 0, of_nat 0));
    destruct (world_to_screen camera (of_nat 0, of_nat 1, of_nat 0));
    destruct (world_to_screen camera (of_nat 0, of_nat 0, of_nat 1));
    destruct (world_to_screen camera (vtimes (of_nat 1, of_nat 0, of_nat 0) eleven_tenths))
      as [[? ?]|];
    destruct (world_to_screen camera (vtimes (of_nat 0, of_nat 1, of_nat 0) eleven_tenths))
      as [[? ?]|];
    destruct (world_to_screen camera (vtimes (of_nat 0, of_nat 0, of_nat 1) eleven_tenths))
      as [[? ?]|];
    repeat split; reflexivity.
Qed.

End AxesDrawing.
Section LabelPositions.

Local Open Scope R_scope.

Lemma Rround_half_even_near (x : R) : Rabs (IZR (Rround_half_even x) - x) <= 1 / 2.
Proof.
  unfold Rround_half_even. destruct (archimed x) as [A1 A2].
  set (f := (up x - 1)%Z).
  assert (E : IZR f = IZR (up x) - 1) by (unfold f; rewrite minus_IZR; reflexivity).
  destruct (Rlt_dec (x - IZR f) (1 / 2)) as [L|L];
    [| destruct (Rlt_dec (1 / 2) (x - IZR f)) as [G|G];
       [| destruct (Z.even f)]];
    rewrite ?plus_IZR; apply Rabs_le; lra.
Qed.

Lemma of_int_IZR (z : Z) : of_int (F := R) z = IZR z.
Proof.
  destruct z as [|p|p]; unfold of_int; scalar_R.
  - reflexivity.
  - rewrite INR_IZR_INZ, positive_nat_Z. reflexivity.
  - rewrite INR_IZR_INZ, positive_nat_Z. rewrite <- opp_IZR. reflexivity.
Qed.

(** X10: every label that [CoordinateAxes.draw] blits is the label of an
    axis whose label point has a projection, in the font size and colour
    of the axes, at whole pixel coordinates within half a pixel of the
    projection moved by the text offset. *)
Theorem CoordinateAxes_label_position
    (Camera : Type) (world_to_screen : Camera -> Vector R -> option (R * R))
    (self : CoordinateAxes) (camera : Camera)
    (fs : Z) (l : Labels.label) (col : Color) (dx dy : Z) :
  In (BlitText fs l col (dx, dy))
     (CoordinateAxes_draw world_to_screen self [] camera) ->
  fs = font_size self /\ col = axes_color self
  /\ exists (e : Vector R) (px py : R),
       In (e, l) labelled_axes
       /\ world_to_screen camera (vtimes e (11 / 10)) = Some (px, py)
       /\ Rabs (IZR dx - (px + IZR (fst (text_offset self)))) <= 1 / 2
       /\ Rabs (IZR dy - (py + IZR (snd (text_offset self)))) <= 1 / 2.
Proof.
  rewrite CoordinateAxes_draw_calls. cbn [app].
  intros H. apply in_concat in H. destruct H as (calls & H1 & H2).
  apply in_map_iff in H1. destruct H1 as ([e l'] & <- & H1).
  unfold axis_calls in H2. apply in_app_or in H2. destruct H2 as [H2 | H2].
  { apply in_map_iff in H2. destruct H2 as (c & C & _). discriminate. }
  change (@eleven_tenths R R_pixels) with (11 / 10) in H2.
  destruct (world_to_screen camera (vtimes e (11 / 10))) as [[px py]|] eqn:W;
    [|contradiction].
  destruct H2 as [H2 | []]. injection H2 as <- <- <- <- <-.
  repeat split; auto. exists e, px, py. repeat split; auto.
  - rewrite of_int_IZR. apply Rround_half_even_near.
  - rewrite of_int_IZR. apply Rround_half_even_near.
Qed.


Lemma CoordinateAxes_label_position_witness :
  16%Z = font_size (mkCoordinateAxes BLACK (0, -15)%Z 16%Z)
  /\ BLACK = axes_color (mkCoordinateAxes BLACK (0, -15)%Z 16%Z)
  /\ exists (e : Vector R) (px py : R),
       In (e, Labels.x) labelled_axes
       /\ flat_camera tt (vtimes e (11 / 10)) = Some (px, py)
       /\ Rabs (IZR (Rround_half_even (INR 1 * (11 / 10) + of_int 0))
                - (px + IZR (fst (text_offset
                                    (mkCoordinateAxes BLACK (0, -15)%Z 16%Z)))))
          <= 1 / 2
       /\ Rabs (IZR (Rround_half_even (INR 0 * (11 / 10) + of_int (-15)))
                - (py + IZR (snd (text_offset
                                    (mkCoordinateAxes BLACK (0, -15)%Z 16%Z)))))
          <= 1 / 2.
Proof.
  apply (CoordinateAxes_label_position
           unit flat_camera (mkCoordinateAxes BLACK (0, -15)%Z 16%Z) tt
           16%Z Labels.x BLACK
           (Rround_half_even (INR 1 * (11 / 10) + of_int 0))
           (Rround_half_even (INR 0 * (11 / 10) + of_int (-15)))).
  rewrite CoordinateAxes_draw_calls.
  unfold labelled_axes, axis_calls, draw_line3d, flat_camera, vtimes.
  cbn [combine map concat app fst snd axes_color text_offset font_size In].
  right. left. reflexivity.
Defined.

End LabelPositions.
Section CircleFrame.

Context {F : Type} {SF : Scalar F} {TF : Trig F}.
Variable Camera : Type.
Variable world_to_screen : Camera -> Vector F -> option (F * F).

Lemma node_draws (camera : Camera) (ns : list (Node F)) (screen : Screen F Camera) :
  fold_left (fun screen node => screen ++ [NodeDraw node camera]) ns screen =
  screen ++ map (fun node => NodeDraw node camera) ns.
Proof.
  revert screen. induction ns as [|n ns IH]; intros screen; cbn.
  - rewrite app_nil_r. reflexivity.
  - rewrite IH, <- app_assoc. reflexivity.
Qed.

Lemma get_circle_params_short (self : Circumcircle F) :
  (length (nodes self) < 3)%nat ->
  get_circle_params self = (Raises IndexError, self).
Proof.
  unfold get_circle_params, node_position, bind, try_except, call, ret, gets,
    raise.
  destruct self as [ns col]. cbn [nodes].
  destruct ns as [|na [|nb [|nc tl]]]; cbn [nth_error nodes length];
    intros L; try lia; reflexivity.
Qed.

Lemma get_circle_params_returns (self : Circumcircle F) :
  (3 <= length (nodes self))%nat ->
  exists r, get_circle_params self = (Returns r, self).
Proof.
  unfold get_circle_params, node_position, bind, try_except, call, ret, gets,
    raise.
  destruct self as [ns col]. cbn [nodes].
  destruct ns as [|na [|nb [|nc tl]]]; cbn [nth_error nodes length];
    intros L; try lia.
  destruct (position na) as [[a1 a2] a3], (position nb) as [[b1 b2] b3],
    (position nc) as [[c1 c2] c3].
  destruct (linalg_solve _ _) as [center | e] eqn:E.
  - eexists. reflexivity.
  - apply linalg_solve_raises in E. subst e. eexists. reflexivity.
Qed.

(** What [Circumcircle.draw] does to the screen does not depend on what the
    screen holds, and the solver is left as it was. *)
Lemma Circumcircle_draw_calls (camera : Camera) (self : Circumcircle F)
    (screen : Screen F Camera) :
  Circumcircle_draw world_to_screen camera (self, screen) =
  (fst (Circumcircle_draw world_to_screen camera (self, [])),
   (self, screen ++ snd (snd (Circumcircle_draw world_to_screen camera (self, []))))).
Proof.
  unfold Circumcircle_draw. rewrite !node_draws. cbn [app].
  pose proof (get_circle_params_keeps_state self) as K.
  destruct (get_circle_params self) as [[[[[center normal] radius]|]|e] self'];
    cbn [snd] in K; subst self'; cbn [fst snd]; try reflexivity.
  unfold on_screen. rewrite <- !app_assoc. reflexivity.
Qed.

(** X11: on a solver with fewer than three nodes, [Circumcircle.draw] draws
    the nodes there are and then raises [IndexError]. *)
Theorem Circumcircle_draw_short (camera : Camera) (self : Circumcircle F)
    (screen : Screen F Camera) :
  (length (nodes self) < 3)%nat ->
  Circumcircle_draw world_to_screen camera (self, screen) =
  (Raises IndexError,
   (self, screen ++ map (fun node => NodeDraw node camera) (nodes self))).
Proof.
  intros L. unfold Circumcircle_draw.
  rewrite node_draws, (get_circle_params_short self L). reflexivity.
Qed.

End CircleFrame.

Section CircleFrameExact.

Local Open Scope R_scope.

Variable Camera : Type.
Variable world_to_screen : Camera -> Vector R -> option (R * R).

Lemma Circumcircle_draw_short_witness :
  Circumcircle_draw flat_camera tt
    (mkCircumcircle [mkNode (0, 0, 0) None; mkNode (0, 1, 1) None] RED, []) =
  (Raises IndexError,
   (mkCircumcircle [mkNode (0, 0, 0) None; mkNode (0, 1, 1) None] RED,
    [] ++ map (fun node => NodeDraw node tt)
              (nodes (mkCircumcircle [mkNode (0, 0, 0) None; mkNode (0, 1, 1) None]
                                     RED)))).
Proof.
  apply (Circumcircle_draw_short unit flat_camera tt
           (mkCircumcircle [mkNode (0, 0, 0) None; mkNode (0, 1, 1) None] RED) []).
  cbn. lia.
Defined.

(** X12: on three collinear points [Circumcircle.draw] draws the nodes and
    nothing else.  On three points that are not collinear it draws the
    nodes, then a node in the colour of the solver at the center that
    [get_circle_params] returns, then at most 20 segments; it never
    raises and leaves the solver as it was. *)
Theorem Circumcircle_draw_exact (camera : Camera) (self : Circumcircle R)
    (screen : Screen R Camera) (a b c : Vector R) :
  node_positions self = Some (a, b, c) ->
  (collinear a b c ->
   Circumcircle_draw world_to_screen camera (self, screen) =
   (Returns tt,
    (self, screen ++ map (fun node => NodeDraw node camera) (nodes self))))
  /\ (~ collinear a b c ->
      exists (center normal : Vector R) (radius : R) (segments : Surface R),
        get_circle_params self = (Returns (Some (center, normal, radius)), self)
        /\ Circumcircle_draw world_to_screen camera (self, screen) =
           (Returns tt,
            (self,
             screen ++ map (fun node => NodeDraw node camera) (nodes self)
             ++ NodeDraw (mkNode center (Some (color self))) camera
             :: map LineCall segments))
        /\ (length segments <= 20)%nat).
Proof.
  intros P. unfold Circumcircle_draw. rewrite node_draws.
  rewrite (get_circle_params_exact self P). split.
  - intros H. apply collinear_cross, exact_circle_none in H. rewrite H.
    reflexivity.
  - intros H. rewrite collinear_cross in H.
    destruct (exact_circle_some a b c H) as [E _]. rewrite E.
    set (center := cramer _ _). set (normal := vdiv _ _). set (radius := linalg_norm _).
    destruct (draw_circle3d_extends Camera world_to_screen [] camera (color self)
                center normal radius 20 1) as (segments & D & L).
    exists center, normal, radius, segments.
    split; [reflexivity|]. split; [|exact L].
    unfold on_screen. rewrite D. cbn [app]. rewrite <- !app_assoc. reflexivity.
Qed.

End CircleFrameExact.

Section CircleFrameExamples.

Local Open Scope R_scope.

Lemma Circumcircle_draw_exact_witness :
  (collinear (0, 0, 0) (1, 0, 0) (2, 0, 0) ->
   Circumcircle_draw flat_camera tt (scene (0, 0, 0) (1, 0, 0) (2, 0, 0), []) =
   (Returns tt,
    (scene (0, 0, 0) (1, 0, 0) (2, 0, 0),
     [] ++ map (fun node => NodeDraw node tt)
               (nodes (scene (0, 0, 0) (1, 0, 0) (2, 0, 0))))))
  /\ (~ collinear (0, 0, 0) (1, 0, 0) (2, 0, 0) ->
      exists (center normal : Vector R) (radius : R) (segments : Surface R),
        get_circle_params (scene (0, 0, 0) (1, 0, 0) (2, 0, 0)) =
          (Returns (Some (center, normal, radius)),
           scene (0, 0, 0) (1, 0, 0) (2, 0, 0))
        /\ Circumcircle_draw flat_camera tt
             (scene (0, 0, 0) (1, 0, 0) (2, 0, 0), []) =
           (Returns tt,
            (scene (0, 0, 0) (1, 0, 0) (2, 0, 0),
             [] ++ map (fun node => NodeDraw node tt)
                       (nodes (scene (0, 0, 0) (1, 0, 0) (2, 0, 0)))
             ++ NodeDraw
                  (mkNode center
                          (Some (color (scene (0, 0, 0) (1, 0, 0) (2, 0, 0)))))
                  tt
             :: map LineCall segments))
        /\ (length segments <= 20)%nat).
Proof.
  apply (Circumcircle_draw_exact unit flat_camera tt
           (scene (0, 0, 0) (1, 0, 0) (2, 0, 0)) []
           (0, 0, 0) (1, 0, 0) (2, 0, 0)).
  reflexivity.
Defined.

End CircleFrameExamples.
Section ApplicationFacts.

Context {F : Type} {SF : Scalar F} {TF : Trig F} {PF : Pixels F}.
Variable Camera : Type.
Variable world_to_screen : Camera -> Vector F -> option (F * F).
Variable Event : Type.
Variable is_quit : Event -> bool.
Variable InputManager : Type.
Variable handle_event :
  Event -> InputManager * Camera * list (Node F) ->
  InputManager * Camera * list (Node F).

(** X13: [App.update] hands the events to the input manager in order up to
    the first QUIT.  Without a QUIT it handles them all and returns [True];
    with one it returns [False], and the events that follow the QUIT in the
    queue are not handled. *)
Theorem App_update_until_quit (events : list Event) (self : App Camera InputManager) :
  (no_quit is_quit events = true ->
   App_update is_quit handle_event events self = (true, fold_left (App_handle handle_event) events self))
  /\ (forall (before after : list Event) (quit : Event),
        events = before ++ quit :: after ->
        no_quit is_quit before = true ->
        is_quit quit = true ->
        App_update is_quit handle_event events self = (false, fold_left (App_handle handle_event) before self)).
Proof.
  split.
  - revert self. induction events as [|e events IH]; intros self H.
    + reflexivity.
    + cbn in H. apply andb_prop in H. destruct H as [H1 H2].
      cbn [App_update fold_left]. destruct (is_quit e); [discriminate|].
      apply IH. exact H2.
  - intros before after quit -> H Q. revert self.
    induction before as [|e before IH]; intros self.
    + cbn. rewrite Q. reflexivity.
    + cbn in H. apply andb_prop in H. destruct H as [H1 H2].
      cbn [app App_update fold_left]. destruct (is_quit e); [discriminate|].
      apply IH. exact H2.
Qed.

Lemma App_update_returns (events : list Event) (self : App Camera InputManager) :
  fst (App_update is_quit handle_event events self) = no_quit is_quit events.
Proof.
  revert self. induction events as [|e events IH]; intros self.
  - reflexivity.
  - cbn. destruct (is_quit e); [reflexivity | apply IH].
Qed.

Lemma axes_no_flip (axes : CoordinateAxes) (camera : Camera) :
  filter (@is_flip F Camera)
    (concat (map (axis_calls world_to_screen axes camera) labelled_axes)) = [].
Proof.
  unfold labelled_axes, axis_calls, draw_line3d. cbn [combine map concat].
  repeat match goal with
         | |- context [match world_to_screen ?c ?p with _ => _ end] =>
             destruct (world_to_screen c p) as [[? ?]|]
         end; reflexivity.
Qed.

Lemma lines_no_flip (segments : Surface F) :
  filter (@is_flip F Camera) (map LineCall segments) = [].
Proof. induction segments as [|s l IH]; cbn; auto. Qed.

Lemma nodes_no_flip (camera : Camera) (ns : list (Node F)) :
  filter (@is_flip F Camera) (map (fun node => NodeDraw node camera) ns) = [].
Proof. induction ns as [|n l IH]; cbn; auto. Qed.

Lemma Circumcircle_draw_no_flip (camera : Camera) (self : Circumcircle F) :
  filter (@is_flip F Camera)
    (snd (snd (Circumcircle_draw world_to_screen camera (self, [])))) = [].
Proof.
  unfold Circumcircle_draw. rewrite node_draws. cbn [app].
  destruct (get_circle_params self) as [[[[[center normal] radius]|]|e] self'];
    cbn [snd]; try apply nodes_no_flip.
  unfold on_screen. rewrite !filter_app, nodes_no_flip, lines_no_flip. reflexivity.
Qed.

Lemma App_draw_effect (self : App Camera InputManager) :
  exists (o : outcome unit) (calls : Screen F Camera),
    (forall screen,
       App_draw world_to_screen (self, screen) = (o, (self, screen ++ FillCall WHITE :: calls)))
    /\ (o = Raises IndexError <-> (length (nodes (app_circle self)) < 3)%nat)
    /\ (o = Returns tt <-> (3 <= length (nodes (app_circle self)))%nat)
    /\ frames_shown calls = 0%nat.
Proof.
  destruct self as [camera circle axes input].
  exists (fst (Circumcircle_draw world_to_screen camera (circle, []))).
  exists (concat (map (axis_calls world_to_screen axes camera) labelled_axes)
          ++ snd (snd (Circumcircle_draw world_to_screen camera (circle, [])))).
  cbn [app_circle]. split; [|split; [|split]].
  - intros screen. unfold App_draw. cbn [app_camera app_circle app_axes app_input].
    rewrite CoordinateAxes_draw_calls, Circumcircle_draw_calls.
    rewrite <- !app_assoc. reflexivity.
  - destruct (Nat.lt_ge_cases (length (nodes circle)) 3) as [L | L].
    + unfold Circumcircle_draw. rewrite (get_circle_params_short circle L).
      cbn. tauto.
    + unfold Circumcircle_draw.
      destruct (get_circle_params_returns circle L) as [[[[center normal] radius]|] E];
        rewrite E; cbn; split; intros H; try discriminate; lia.
  - destruct (Nat.lt_ge_cases (length (nodes circle)) 3) as [L | L].
    + unfold Circumcircle_draw. rewrite (get_circle_params_short circle L).
      cbn. split; intros H; try discriminate; lia.
    + unfold Circumcircle_draw.
      destruct (get_circle_params_returns circle L) as [[[[center normal] radius]|] E];
        rewrite E; cbn; tauto.
  - unfold frames_shown. rewrite filter_app, axes_no_flip, Circumcircle_draw_no_flip.
    reflexivity.
Qed.

(** X14: a frame starts with a fill in white, and what [App.draw] adds to
    the screen does not depend on what the screen held; the application is
    left as it was; the draw raises, with [IndexError], exactly when the
    circle has fewer than three nodes; and it never flips the display. *)
Theorem App_draw_frame (self : App Camera InputManager) :
  exists (o : outcome unit) (calls : Screen F Camera),
    (forall screen,
       App_draw world_to_screen (self, screen) = (o, (self, screen ++ FillCall WHITE :: calls)))
    /\ (o = Raises IndexError <-> (length (nodes (app_circle self)) < 3)%nat)
    /\ (o = Returns tt <-> (3 <= length (nodes (app_circle self)))%nat)
    /\ frames_shown calls = 0%nat.
Proof. exact (App_draw_effect self). Qed.

Lemma frames_shown_app (s1 s2 : Screen F Camera) :
  frames_shown (s1 ++ s2) = (frames_shown s1 + frames_shown s2)%nat.
Proof. unfold frames_shown. rewrite filter_app, length_app. reflexivity. Qed.

(** X15: the loop of [main] shows one frame for each queue of events before
    the first queue that holds a QUIT, and none for that queue or after
    it.  It ends by returning when a QUIT is met ([true]) or when the
    queues given are used up ([false]); the only exception that can end it
    is [IndexError], and then fewer frames were shown. *)
Theorem main_loop_frames (queues : list (list Event))
    (app : App Camera InputManager) (screen : Screen F Camera) :
  exists (o : outcome bool) (app' : App Camera InputManager)
         (screen' : Screen F Camera),
    main_loop world_to_screen is_quit handle_event queues (app, screen) =
      (o, (app', screen'))
    /\ (frames_shown screen' <=
        frames_shown screen + frames_before_quit is_quit queues)%nat
    /\ (forall stopped : bool,
          o = Returns stopped ->
          frames_shown screen' =
            (frames_shown screen + frames_before_quit is_quit queues)%nat
          /\ stopped = negb (forallb (no_quit is_quit) queues))
    /\ (forall e : exn, o = Raises e -> e = IndexError).
Proof.
  revert app screen. induction queues as [|events later IH]; intros app screen.
  - exists (Returns false), app, screen. cbn.
    split; [reflexivity|]. split; [lia|]. split.
    + intros stopped [= <-]. split; [lia | reflexivity].
    + intros e H. discriminate.
  - cbn [main_loop frames_before_quit forallb].
    pose proof (App_update_returns events app) as U.
    destruct (App_update is_quit handle_event events app) as [go_on app1].
    cbn [fst] in U. subst go_on.
    destruct (no_quit is_quit events) eqn:Q.
    + destruct (App_draw_effect app1) as (o1 & calls & D & R1 & R2 & N).
      rewrite D.
      destruct (Nat.lt_ge_cases (length (nodes (app_circle app1))) 3) as [L | L].
      * apply R1 in L. subst o1.
        exists (Raises IndexError), app1, (screen ++ FillCall WHITE :: calls).
        split; [reflexivity|].
        rewrite frames_shown_app.
        change (frames_shown (FillCall WHITE :: calls)) with (frames_shown calls).
        rewrite N. split; [lia|]. split.
        -- intros stopped H. discriminate.
        -- intros e [= <-]. reflexivity.
      * apply R2 in L. subst o1.
        destruct (IH app1 ((screen ++ FillCall WHITE :: calls) ++ [FlipCall]))
          as (o & app' & screen' & E & B & S & X).
        exists o, app', screen'. split; [exact E|].
        rewrite !frames_shown_app in B, S.
        change (frames_shown (FillCall WHITE :: calls)) with (frames_shown calls)
          in B, S.
        change (frames_shown (F := F) (Camera := Camera) [FlipCall]) with 1%nat in B, S.
        rewrite N in B, S. split; [lia|]. split; [|exact X].
        intros stopped H. destruct (S stopped H) as [S1 S2].
        split; [lia | exact S2].
    + exists (Returns true), app1, screen.
      split; [reflexivity|]. split; [lia|]. split.
      * intros stopped [= <-]. split; [lia | reflexivity].
      * intros e H. discriminate.
Qed.

End ApplicationFacts.

(** ** The program in binary64

    The same code at the instance [float], the arithmetic of the program.
    Rounding, overflow and underflow have no counterpart in exact
    arithmetic: on the positions below the program does not do what the
    algorithm does in exact arithmetic. *)

(** *** The real numbers the doubles of these runs stand for *)

Section Binary64Values.

Local Open Scope R_scope.

Ltac real_literal :=
  unfold real_of;
  match goal with
  | |- context [Prim2SF ?x] =>
      let v := eval vm_compute in (Prim2SF x) in change (Prim2SF x) with v
  end;
  cbv beta iota;
  try match goal with
  | |- context [Z.pow_pos 2 ?p] =>
      let z := eval vm_compute in (Z.pow_pos 2 p) in change (Z.pow_pos 2 p) with z
  end;
  try match goal with
  | |- context [IZR (?m * 2 ^ ?e)] =>
      let z := eval vm_compute in (m * 2 ^ e)%Z in change (m * 2 ^ e)%Z with z
  end;
  lra.

Lemma real_of_0 : real_of 0%float = 0.
Proof. real_literal. Qed.

Lemma real_of_1 : real_of 1%float = 1.
Proof. real_literal. Qed.

Lemma real_of_minus_1 : real_of (-1)%float = -1.
Proof. real_literal. Qed.

Lemma real_of_minus_3 : real_of (-3)%float = -3.
Proof. real_literal. Qed.

Lemma real_of_2_53 : real_of (0x1p+53)%float = 9007199254740992.
Proof. real_literal. Qed.

Lemma real_of_minus_3_2_53_4 :
  real_of (-0x1.8000000000001p+54)%float = -27021597764222980.
Proof. real_literal. Qed.

Lemma real_of_1e8 : real_of (0x1.7d784p+26)%float = 100000000.
Proof. real_literal. Qed.

Lemma real_of_1e8_1 : real_of (0x1.7d78404p+26)%float = 100000001.
Proof. real_literal. Qed.


(** The scenario of the specification moved by (1e8, 1e8, 1e8): three
    positions that are doubles, and not collinear. *)
Lemma far_scenario_positions :
  real_point (0x1.7d784p+26, 0x1.7d784p+26, 0x1.7d784p+26)%float =
    (100000000, 100000000, 100000000)
  /\ real_point (0x1.7d784p+26, 0x1.7d78404p+26, 0x1.7d78404p+26)%float =
    (100000000, 100000001, 100000001)
  /\ real_point (0x1.7d78404p+26, 0x1.7d784p+26, 0x1.7d784p+26)%float =
    (100000001, 100000000, 100000000).
Proof.
  unfold real_point. rewrite real_of_1e8, real_of_1e8_1. auto.
Qed.

Lemma far_scenario_not_collinear :
  ~ collinear (100000000, 100000000, 100000000)
              (100000000, 100000001, 100000001)
              (100000001, 100000000, 100000000).
Proof.
  rewrite collinear_cross. unfold np_cross, vsub. scalar_R.
  intros [= H1 H2 H3]. lra.
Qed.

(** Three positions on the line through (-1, 0, 0) with the direction
    (2^53 + 1, 1, 0): the point itself, the point three steps back and the
    point one step ahead.  All three are doubles. *)
Lemma long_line_positions :
  real_point (-1, 0, 0)%float = (-1, 0, 0)
  /\ real_point (-0x1.8000000000001p+54, -3, 0)%float =
     (-27021597764222980, -3, 0)
  /\ real_point (0x1p+53, 1, 0)%float = (9007199254740992, 1, 0).
Proof.
  unfold real_point.
  rewrite real_of_0, real_of_1, real_of_minus_1, real_of_minus_3,
    real_of_2_53, real_of_minus_3_2_53_4.
  auto.
Qed.

Lemma long_line_collinear :
  collinear (-1, 0, 0) (-27021597764222980, -3, 0) (9007199254740992, 1, 0).
Proof.
  exists 1, 3. split; [left; lra|].
  unfold vadd, vscale, vsub. scalar_R. repeat f_equal; lra.
Qed.



End Binary64Values.

Section Binary64.

Local Open Scope float_scope.

(** The scenario of the specification: the center is (0.5, 0.5, 0.5), the
    normal is (0, 1/sqrt 2, -1/sqrt 2) and the radius is sqrt 3 / 2, up to
    rounding. *)
Example binary64_scenario :
  fst (get_circle_params (scene (0, 0, 0) (0, 1, 1) (1, 0, 0))) =
  Returns (Some ((0.5, 0.5, 0.5),
                 (0, 0x1.6a09e667f3bccp-1, -0x1.6a09e667f3bccp-1),
                 0x1.bb67ae8584caap-1)).
Proof. vm_compute. reflexivity. Qed.

Example binary64_collinear :
  fst (get_circle_params (scene (0, 0, 0) (1, 0, 0) (2, 0, 0))) = Returns None.
Proof. vm_compute. reflexivity. Qed.

Example binary64_coincident :
  fst (get_circle_params (scene (0, 0, 0) (0, 0, 0) (1, 1, 1))) = Returns None.
Proof. vm_compute. reflexivity. Qed.

(** C1, at the scenario moved by (1e8, 1e8, 1e8): the three positions are
    not collinear, and [get_circle_params] returns the circle with center
    [a] and radius zero, while [b] is at distance sqrt 2 from that center.
    The squared lengths in the right-hand side are near 3e16, where doubles
    are 4 apart, and their differences lose the digits that place the
    center. *)
Theorem binary64_far_scenario_radius_zero :
  let a := (0x1.7d784p+26, 0x1.7d784p+26, 0x1.7d784p+26) in
  let b := (0x1.7d784p+26, 0x1.7d78404p+26, 0x1.7d78404p+26) in
  let c := (0x1.7d78404p+26, 0x1.7d784p+26, 0x1.7d784p+26) in
  ~ collinear (real_point a) (real_point b) (real_point c)
  /\ fst (get_circle_params (scene a b c)) =
     Returns (Some (a, (0, 0x1.6a09e667f3bccp-1, -0x1.6a09e667f3bccp-1), 0))
  /\ linalg_norm (vsub a b) = 0x1.6a09e667f3bcdp+0.
Proof.
  intros a b c. split; [|split].
  - unfold a, b, c. destruct far_scenario_positions as (-> & -> & ->).
    exact far_scenario_not_collinear.
  - vm_compute. reflexivity.
  - vm_compute. reflexivity.
Qed.

(** C2, at three doubles that are exactly collinear: the differences
    [b - a], [c - b] and [c - a] are rounded, each in its own way, the
    rounded vectors are no longer parallel, no pivot of the factorisation
    is zero, and [get_circle_params] returns a circle, of radius above
    2^150. *)
Theorem binary64_collinear_returns_circle :
  let a := (-1, 0, 0) in
  let b := (-0x1.8000000000001p+54, -3, 0) in
  let c := (0x1p+53, 1, 0) in
  collinear (real_point a) (real_point b) (real_point c)
  /\ np_cross (vsub b a) (vsub c a) = (-0, 0, -4)
  /\ exists (center normal : Vector float) (radius : float),
       fst (get_circle_params (scene a b c)) =
         Returns (Some (center, normal, radius))
       /\ (0x1p+150 <? radius) = true.
Proof.
  intros a b c. split; [|split].
  - unfold a, b, c. destruct long_line_positions as (-> & -> & ->).
    exact long_line_collinear.
  - vm_compute. reflexivity.
  - exists (-0x1.8000000000002p+104, 0x1.8p+157, -0), (-0, 0, -1), 0x1.8p+157.
    split; vm_compute; reflexivity.
Qed.

(** C3, where a square underflows and where it overflows: on (0,0,0),
    (1,0,0), (0,2^-600,0) the returned normal is (NaN, NaN, infinity), and
    on the right triangle with legs 2^256 it is the zero vector.  Neither
    has length one. *)
Theorem binary64_normal_not_unit :
  fst (get_circle_params (scene (0, 0, 0) (1, 0, 0) (0, 0x1p-600, 0))) =
    Returns (Some ((0.5, 0, 0), (nan, nan, infinity), 0.5))
  /\ fst (get_circle_params
            (scene (0, 0, 0) (0x1p+256, 0, 0) (0, 0x1p+256, 0))) =
     Returns (Some ((0x1p+255, 0x1p+255, 0), (0, 0, 0), 0x1.6a09e667f3bcdp+255)).
Proof. split; vm_compute; reflexivity. Qed.


(** C5, where squares overflow and where a square underflows: on
    (2^600,0,0), (-2^600,0,0), (0,1,0) the circle returned has a center and
    a radius that are not numbers; on (0,0,0), (1,0,0), (0,2^-600,0) the
    length by which the normal is divided is computed as zero, and the
    normal returned is (NaN, NaN, infinity). *)
Theorem binary64_circle_not_finite :
  (exists (y z : float) (normal : Vector float),
     fst (get_circle_params
            (scene (0x1p+600, 0, 0) (-0x1p+600, 0, 0) (0, 1, 0))) =
     Returns (Some ((nan, y, z), normal, nan)))
  /\ linalg_norm
       (np_cross (vsub (1, 0, 0) (0, 0, 0)) (vsub (0, 0x1p-600, 0) (0, 0, 0))) = 0
  /\ exists (center : Vector float) (radius : float),
       fst (get_circle_params (scene (0, 0, 0) (1, 0, 0) (0, 0x1p-600, 0))) =
       Returns (Some (center, (nan, nan, infinity), radius)).
Proof.
  split; [|split].
  - exists nan, nan, (0, 0, -0). vm_compute. reflexivity.
  - vm_compute. reflexivity.
  - exists (0.5, 0, 0), 0.5. vm_compute. reflexivity.
Qed.

(** C8, at a normal that [get_circle_params] returns: for the positions
    (0,0,0), (0,0,1), (1,-2^-29,0) the normal is (2^-29, 1, -0), of computed
    length one.  Its first component is within the tolerance of
    [np.isclose], the fallback takes [orth1] = (1, 0, 0), and the product of
    [orth1] with the normal is 2^-29, not zero. *)
Theorem binary64_plane_basis_not_orthogonal :
  let normal := (0x1p-29, 1, -0) in
  (exists (center : Vector float) (radius : float),
     fst (get_circle_params (scene (0, 0, 0) (0, 0, 1) (1, -0x1p-29, 0))) =
     Returns (Some (center, normal, radius)))
  /\ linalg_norm normal = 1
  /\ plane_basis normal = ((1, 0, 0), (0, -0, -1))
  /\ np_dot (1, 0, 0) normal = 0x1p-29.
Proof.
  intros normal. split; [|split; [|split]].
  - exists (0.5, -0x1p-30, 0.5), 0x1.6a09e667f3bcdp-1. vm_compute. reflexivity.
  - vm_compute. reflexivity.
  - vm_compute. reflexivity.
  - vm_compute. reflexivity.
Qed.

(** C10, where a square underflows: on (0,0,0), (1,0,0), (0,2^-600,0) the
    cross product is (0, 0, 2^-600), not the zero vector, the linear solve
    does not fail, the length of the cross product is computed as zero, and
    the normal returned is the cross product divided by zero. *)
Theorem binary64_normal_divided_by_zero :
  let a := (0, 0, 0) in
  let b := (1, 0, 0) in
  let c := (0, 0x1p-600, 0) in
  np_cross (vsub b a) (vsub c a) = (0, 0, 0x1p-600)
  /\ linalg_norm (np_cross (vsub b a) (vsub c a)) = 0
  /\ fst (get_circle_params (scene a b c)) =
     Returns (Some ((0.5, 0, 0), vdiv (0, 0, 0x1p-600) 0, 0.5))
  /\ vdiv (0, 0, 0x1p-600) 0 = (nan, nan, infinity).
Proof. repeat split; vm_compute; reflexivity. Qed.

End Binary64.
